(** * Release application: a model of [release/instance.go]

    The development embeds [summariseUpdate] and [applyChanges] of package
    [release] and proves properties of the ledger of results, of the events
    that are logged and of the calls made to the platform.

    [applyChanges] mutates the map of results it is given, logs through the
    instance and calls the platform through the instance.  The model threads
    a [World] (ledger, platform state, chronological trace of effects)
    through a small state monad. *)

From stdpp Require Import gmap strings list fin_maps.

Open Scope string_scope.
Open Scope list_scope.

(** ** Data that does not depend on image references *)

(** [flux.ServiceID] is used as a map key and carries the methods
    [Components] and [String]; it is modelled as a string, and [String] as
    the identity. *)
Abbreviation ServiceID := string.

(** [platform.ServiceDefinition], with the three fields the function sets.
    [Async] is left at its zero value [false] for synchronous definitions. *)
Record ServiceDefinition := {
  def_ServiceID : ServiceID;
  NewDefinition : list Byte.byte;
  Async : bool
}.

(** The values [inst.PlatformApply] can return, seen through the type switch
    of [applyChanges]: [nil] is [None]; [platform.ApplyError] is a map from
    service to cause, of which only [Error()] is read, so a cause is kept as
    its message; every other error value is kept as its message too. *)
Inductive error :=
| ApplyError (causes : gmap ServiceID string)
| OtherError (msg : string).

(** [transactionErr.Error()], read on the [default] branch only. *)
Definition errorMessage (e : error) : string :=
  match e with
  | OtherError msg => msg
  | ApplyError _ => ""
  end.

(** [flux.ReleaseStatus] is a string type.  The three constants the function
    names are constructors; [ReleaseStatusOther raw] stands for every other
    value, among them the zero value (the empty string). *)
Inductive ReleaseStatus :=
| ReleaseStatusSuccess
| ReleaseStatusFailed
| ReleaseStatusUnknown
| ReleaseStatusOther (raw : string).

(** ** What the file takes from the rest of the repository

    The declarations below are used by [release/instance.go] and declared
    elsewhere: the image reference type with its [Tag] field and its
    rendering under the [%s] verb, the decomposition of a service identifier
    into namespace and service name (taken to be total), the two reserved
    service names, and the platform behind [inst.PlatformApply], a state
    machine answering each batch. *)
Class Collaborators := {
  ImageID : Type;
  Tag : ImageID → string;
  ImageString : ImageID → string;
  Components : ServiceID → string * string;
  FluxServiceName : string;
  FluxDaemonName : string;
  Platform : Type;
  PlatformApply : Platform → list ServiceDefinition → option error * Platform
}.

(** [strings.Join]. *)
Fixpoint Join (elems : list string) (sep : string) : string :=
  match elems with
  | [] => ""
  | [e] => e
  | e :: rest => e +:+ sep +:+ Join rest sep
  end.

Section Release.
Context `{Collaborators}.

(** [flux.ContainerUpdate]. *)
Record ContainerUpdate := {
  Container : string;
  Current : ImageID;
  Target : ImageID
}.

(** [ServiceUpdate], with the fields [applyChanges] reads.  The function
    receives a slice of pointers; the model takes every pointer to be
    non-nil. *)
Record ServiceUpdate := {
  update_ServiceID : ServiceID;
  ManifestBytes : list Byte.byte;
  Updates : list ContainerUpdate
}.

(** [flux.ServiceResult]. *)
Record ServiceResult := {
  Status : ReleaseStatus;
  Error : string;
  PerContainer : list ContainerUpdate
}.

(** The zero value, which reading a missing key of a Go map gives. *)
Definition zeroResult : ServiceResult :=
  {| Status := ReleaseStatusOther ""; Error := ""; PerContainer := [] |}.

(** [fmt.Sprintf("%s (%s -> %s)", c.Container, c.Current, c.Target.Tag)]. *)
Definition individualUpdate (c : ContainerUpdate) : string :=
  Container c +:+ " (" +:+ ImageString (Current c) +:+ " -> "
    +:+ Tag (Target c) +:+ ")".

Definition summariseUpdate (containerUpdates : list ContainerUpdate) : string :=
  if decide (length containerUpdates = 0) then "(no image changes)"
  else Join (individualUpdate <$> containerUpdates) ", ".

(** ** Effects

    [results] is the map passed by the caller, which the function mutates in
    place (it is taken to be non-nil, as writing to a nil map panics); the
    trace records, in the order they happen, the events logged through the
    instance, the writes to [results] and the batches handed to the
    platform. *)

Inductive Effect :=
| LogEvent (namespace serviceName msg : string)
| Log (keyvals : list string)
| WriteResult (id : ServiceID) (r : ServiceResult)
| Apply (defs : list ServiceDefinition).

Record World := {
  results : gmap ServiceID ServiceResult;
  platform : Platform;
  trace : list Effect
}.

Definition M (A : Type) : Type := World → A * World.

#[export] Instance M_ret : MRet M := λ A (a : A) w, (a, w).
#[export] Instance M_bind : MBind M :=
  λ A B (f : A → M B) (m : M A) w, let '(a, w1) := m w in f a w1.

Definition emit (e : Effect) (w : World) : World :=
  {| results := results w; platform := platform w; trace := trace w ++ [e] |}.

Definition logEvent (namespace serviceName msg : string) : M unit :=
  λ w, (tt, emit (LogEvent namespace serviceName msg) w).

Definition logDiagnostic (keyvals : list string) : M unit :=
  λ w, (tt, emit (Log keyvals) w).

(** [results[id]]. *)
Definition lookupResult (m : gmap ServiceID ServiceResult) (id : ServiceID)
  : ServiceResult := default zeroResult (m !! id).

Definition readResult (id : ServiceID) : M ServiceResult :=
  λ w, (lookupResult (results w) id, w).

(** [results[id] = r]. *)
Definition writeResult (id : ServiceID) (r : ServiceResult) : M unit :=
  λ w, (tt, {| results := <[id := r]> (results w);
               platform := platform w;
               trace := trace w ++ [WriteResult id r] |}).

(** [inst.PlatformApply(defs)]. *)
Definition platformApply (defs : list ServiceDefinition) : M (option error) :=
  λ w, let '(e, p) := PlatformApply (platform w) defs in
       (e, {| results := results w; platform := p;
              trace := trace w ++ [Apply defs] |}).

(** A [for ... range] loop over a slice, run for its effects. *)
Fixpoint forEach {A} (l : list A) (body : A → M unit) : M unit :=
  match l with
  | [] => mret tt
  | x :: rest => body x ;; forEach rest body
  end.

(** ** [applyChanges] *)

(** The [case FluxServiceName, FluxDaemonName] of the first [switch]. *)
Definition isSelfName (serviceName : string) : Prop :=
  serviceName = FluxServiceName ∨ serviceName = FluxDaemonName.

Definition isSelf (update : ServiceUpdate) : Prop :=
  isSelfName (Components (update_ServiceID update)).2.

Definition syncDef (update : ServiceUpdate) : ServiceDefinition :=
  {| def_ServiceID := update_ServiceID update;
     NewDefinition := ManifestBytes update;
     Async := false |}.

Definition asyncDef (update : ServiceUpdate) : ServiceDefinition :=
  {| def_ServiceID := update_ServiceID update;
     NewDefinition := ManifestBytes update;
     Async := true |}.

(** The result written at the end of each iteration of the first loop. *)
Definition provisional (result : ServiceResult) : ServiceResult :=
  {| Status := ReleaseStatusSuccess;
     Error := Error result;
     PerContainer := PerContainer result |}.

(** One iteration of the first loop (lines 47-70). *)
Definition startUpdate (update : ServiceUpdate)
    (defs asyncDefs : list ServiceDefinition)
  : M (list ServiceDefinition * list ServiceDefinition) :=
  let '(namespace, serviceName) := Components (update_ServiceID update) in
  let updateMsg := summariseUpdate (Updates update) in
  acc ← (if decide (isSelfName serviceName) then
           logEvent namespace serviceName
             ("Starting " +:+ updateMsg +:+ ". (no result expected)");;
           mret (defs, asyncDefs ++ [asyncDef update])
         else
           logEvent namespace serviceName ("Starting " +:+ updateMsg);;
           mret (defs ++ [syncDef update], asyncDefs));
  result ← readResult (update_ServiceID update);
  writeResult (update_ServiceID update) (provisional result);;
  mret acc.

(** The first loop (lines 46-71), with [defs] and [asyncDefs] as
    accumulators. *)
Fixpoint startUpdates (updates : list ServiceUpdate)
    (defs asyncDefs : list ServiceDefinition)
  : M (list ServiceDefinition * list ServiceDefinition) :=
  match updates with
  | [] => mret (defs, asyncDefs)
  | update :: rest =>
      '(defs', asyncDefs') ← startUpdate update defs asyncDefs;
      startUpdates rest defs' asyncDefs'
  end.

Definition failedResult (applyErr : string) : ServiceResult :=
  {| Status := ReleaseStatusFailed; Error := applyErr; PerContainer := [] |}.

Definition unknownResult (msg : string) : ServiceResult :=
  {| Status := ReleaseStatusUnknown; Error := msg; PerContainer := [] |}.

(** The loop over a [platform.ApplyError] (lines 77-82).  Go visits the keys
    of a map in an unspecified order; the model visits them in the order of
    [map_to_list].  The keys are distinct, so the ledger does not depend on
    the order. *)
Definition markFailed (err : gmap ServiceID string) : M unit :=
  forEach (map_to_list err) (λ kv, writeResult kv.1 (failedResult kv.2)).

(** The loop of the [default] branch (lines 84-89). *)
Definition markUnknown (updates : list ServiceUpdate) (transactionErr : error)
  : M unit :=
  forEach updates (λ update,
    writeResult (update_ServiceID update)
                (unknownResult (errorMessage transactionErr))).

(** One iteration of the reporting loop (lines 100-113). *)
Definition reportResult (def : ServiceDefinition) : M unit :=
  result ← readResult (def_ServiceID def);
  let '(namespace, serviceName) := Components (def_ServiceID def) in
  let updateMsg := summariseUpdate (PerContainer result) in
  match Status result with
  | ReleaseStatusSuccess =>
      logEvent namespace serviceName ("Release " +:+ updateMsg +:+ " succeeded")
  | ReleaseStatusFailed =>
      logEvent namespace serviceName
        ("Release " +:+ updateMsg +:+ " failed: " +:+ Error result)
  | ReleaseStatusUnknown =>
      logEvent namespace serviceName
        ("Release " +:+ updateMsg +:+ " outcome unknown: " +:+ Error result)
  | ReleaseStatusOther raw =>
      logDiagnostic ["error"; "unexpected release status";
                     "service-id"; def_ServiceID def; "status"; raw]
  end.

(** Lines 123-125: the result of the call is dropped. *)
Definition applyAsync (asyncDefs : list ServiceDefinition) : M unit :=
  if decide (0 < length asyncDefs) then platformApply asyncDefs;; mret tt
  else mret tt.

(** Lines 98-127, reached when the function has not returned early. *)
Definition reportAndFinish (defs asyncDefs : list ServiceDefinition)
    (transactionErr : option error) : M (option error) :=
  forEach defs reportResult;;
  applyAsync asyncDefs;;
  mret transactionErr.

Definition applyChanges (updates : list ServiceUpdate) : M (option error) :=
  '(defs, asyncDefs) ← startUpdates updates [] [];
  transactionErr ← platformApply defs;
  match transactionErr with
  | None => reportAndFinish defs asyncDefs transactionErr
  | Some (ApplyError err) =>
      markFailed err;;
      reportAndFinish defs asyncDefs transactionErr
  | Some (OtherError msg) =>
      markUnknown updates (OtherError msg);;
      mret transactionErr
  end.

(** ** Points of an execution

    The theorems speak of the state in which [applyChanges] finds itself at
    a few places of its body.  Each is obtained by running the model up to
    that place. *)

(** The slices [defs] and [asyncDefs] after the first loop. *)
Definition partitions (updates : list ServiceUpdate) (w : World)
  : list ServiceDefinition * list ServiceDefinition :=
  (startUpdates updates [] [] w).1.

(** The world in which [inst.PlatformApply(defs)] is issued (line 73). *)
Definition atApply (updates : list ServiceUpdate) (w : World) : World :=
  (startUpdates updates [] [] w).2.

(** The value of [transactionErr]. *)
Definition transactionErrOf (updates : list ServiceUpdate) (w : World)
  : option error :=
  (platformApply (partitions updates w).1 (atApply updates w)).1.

(** The world after the [if transactionErr != nil] block (line 96 or, on the
    [default] branch, the early return of line 94). *)
Definition afterRecording (updates : list ServiceUpdate) (w : World) : World :=
  let w1 := (platformApply (partitions updates w).1 (atApply updates w)).2 in
  match transactionErrOf updates w with
  | None => w1
  | Some (ApplyError err) => (markFailed err w1).2
  | Some (OtherError msg) => (markUnknown updates (OtherError msg) w1).2
  end.

Definition isCoverall (e : option error) : Prop :=
  match e with
  | Some (OtherError _) => True
  | _ => False
  end.

#[export] Instance isCoverall_dec e : Decision (isCoverall e).
Proof. destruct e as [[?|?]|]; simpl; apply _. Defined.

(** The ledger obtained from [m] by the writes of a trace, in order. *)
Fixpoint replay (es : list Effect) (m : gmap ServiceID ServiceResult)
  : gmap ServiceID ServiceResult :=
  match es with
  | [] => m
  | WriteResult id r :: rest => replay rest (<[id := r]> m)
  | _ :: rest => replay rest m
  end.

Definition isWrite (e : Effect) : Prop :=
  match e with WriteResult _ _ => True | _ => False end.

Definition isApply (e : Effect) : Prop :=
  match e with Apply _ => True | _ => False end.

#[export] Instance isApply_dec e : Decision (isApply e).
Proof. destruct e; simpl; apply _. Defined.

End Release.

(** ** A sample instantiation, for running the model

    Image references are a repository name and a tag, rendered
    [repository:tag]; a service identifier is split at its first slash; the
    platform is a test double that answers its calls from a script. *)
Module Sample.

Record ImageRef := { Repository : string; RefTag : string }.

Definition renderImage (i : ImageRef) : string :=
  Repository i +:+ ":" +:+ RefTag i.

Fixpoint splitSlash (s : string) : string * string :=
  match s with
  | EmptyString => ("", "")
  | String c rest =>
      if Ascii.eqb c (Ascii.ascii_of_nat 47) then ("", rest)
      else let '(namespace, service) := splitSlash rest in
           (String c namespace, service)
  end.

Definition scripted (script : list (option error))
    (defs : list ServiceDefinition) : option error * list (option error) :=
  match script with
  | [] => (None, [])
  | answer :: rest => (answer, rest)
  end.

#[export] Instance collaborators : Collaborators := {|
  ImageID := ImageRef;
  Tag := RefTag;
  ImageString := renderImage;
  Components := splitSlash;
  FluxServiceName := "fluxsvc";
  FluxDaemonName := "fluxd";
  Platform := list (option error);
  PlatformApply := scripted
|}.

Definition image (repository tag : string) : ImageRef :=
  {| Repository := repository; RefTag := tag |}.

(** The world a caller starts from: a ledger, a script, an empty trace. *)
Definition world (ledger : gmap ServiceID ServiceResult)
    (script : list (option error)) : World :=
  {| results := ledger; platform := script; trace := [] |}.

Definition web : ServiceUpdate :=
  {| update_ServiceID := "ns/web";
     ManifestBytes := [];
     Updates := [ {| Container := "app";
                     Current := image "repo/app" "v1";
                     Target := image "repo/app" "v2" |} ] |}.

Definition api : ServiceUpdate :=
  {| update_ServiceID := "ns/api"; ManifestBytes := []; Updates := [] |}.

Definition fluxsvc : ServiceUpdate :=
  {| update_ServiceID := "ns/fluxsvc"; ManifestBytes := []; Updates := [] |}.

(** A platform answer naming one service of the batches below. *)
Definition webFails : option error :=
  Some (ApplyError {["ns/web" := "image pull failed"]}).

(** A platform answer naming a service that is in none of them. *)
Definition strangerFails : option error :=
  Some (ApplyError {["ns/other" := "image pull failed"]}).

(** A platform answer that is not a [platform.ApplyError]. *)
Definition platformDown : option error :=
  Some (OtherError "connection refused").

End Sample.

(** ** Closed forms of the loops, used by the proofs *)

Section ClosedForms.
Context `{Collaborators}.

(** The ["Starting ..."] event of one iteration of the first loop. *)
Definition startingEvent (update : ServiceUpdate) : Effect :=
  let '(namespace, serviceName) := Components (update_ServiceID update) in
  let updateMsg := summariseUpdate (Updates update) in
  if decide (isSelfName serviceName) then
    LogEvent namespace serviceName
      ("Starting " +:+ updateMsg +:+ ". (no result expected)")
  else LogEvent namespace serviceName ("Starting " +:+ updateMsg).

(** The ledger after the first loop. *)
Definition primeStep (m : gmap ServiceID ServiceResult) (update : ServiceUpdate)
  : gmap ServiceID ServiceResult :=
  <[update_ServiceID update :=
      provisional (lookupResult m (update_ServiceID update))]> m.

Definition primed (updates : list ServiceUpdate)
    (m : gmap ServiceID ServiceResult) : gmap ServiceID ServiceResult :=
  foldl primeStep m updates.

(** The effects of the first loop. *)
Fixpoint startEffects (updates : list ServiceUpdate)
    (m : gmap ServiceID ServiceResult) : list Effect :=
  match updates with
  | [] => []
  | update :: rest =>
      startingEvent update
        :: WriteResult (update_ServiceID update)
             (provisional (lookupResult m (update_ServiceID update)))
        :: startEffects rest (primeStep m update)
  end.

(** The effect of one iteration of the reporting loop on ledger [m]. *)
Definition reportEffect (m : gmap ServiceID ServiceResult)
    (def : ServiceDefinition) : Effect :=
  let result := lookupResult m (def_ServiceID def) in
  let '(namespace, serviceName) := Components (def_ServiceID def) in
  let updateMsg := summariseUpdate (PerContainer result) in
  match Status result with
  | ReleaseStatusSuccess =>
      LogEvent namespace serviceName ("Release " +:+ updateMsg +:+ " succeeded")
  | ReleaseStatusFailed =>
      LogEvent namespace serviceName
        ("Release " +:+ updateMsg +:+ " failed: " +:+ Error result)
  | ReleaseStatusUnknown =>
      LogEvent namespace serviceName
        ("Release " +:+ updateMsg +:+ " outcome unknown: " +:+ Error result)
  | ReleaseStatusOther raw =>
      Log ["error"; "unexpected release status";
           "service-id"; def_ServiceID def; "status"; raw]
  end.

(** The effects of lines 123-125. *)
Definition asyncEffects (asyncDefs : list ServiceDefinition) : list Effect :=
  if decide (0 < length asyncDefs) then [Apply asyncDefs] else [].

(** Every effect of the first loop is a log event or the write of a
    provisional result for a service of the batch. *)
Definition startEffectOf (updates : list ServiceUpdate)
    (m : gmap ServiceID ServiceResult) (e : Effect) : Prop :=
  match e with
  | LogEvent _ _ _ => True
  | WriteResult id r =>
      id ∈ update_ServiceID <$> updates ∧ r = provisional (lookupResult m id)
  | _ => False
  end.

(** The writes of the [if transactionErr != nil] block. *)
Definition recordingWrites (updates : list ServiceUpdate)
    (transactionErr : option error) : list Effect :=
  match transactionErr with
  | None => []
  | Some (ApplyError err) =>
      (λ kv, WriteResult kv.1 (failedResult kv.2)) <$> map_to_list err
  | Some (OtherError msg) =>
      (λ u, WriteResult (update_ServiceID u) (unknownResult msg)) <$> updates
  end.

(** The effects of lines 98-127 on ledger [m]. *)
Definition finishEffects (m : gmap ServiceID ServiceResult)
    (defs asyncDefs : list ServiceDefinition) : list Effect :=
  (reportEffect m <$> defs) ++ asyncEffects asyncDefs.


End ClosedForms.

(** ** Further definitions *)

Section TraceKinds.
Context `{Collaborators}.

Definition isLogEvent (e : Effect) : Prop :=
  match e with LogEvent _ _ _ => True | _ => False end.

#[export] Instance isLogEvent_dec e : Decision (isLogEvent e).
Proof. destruct e; simpl; apply _. Defined.

#[export] Instance isWrite_dec e : Decision (isWrite e).
Proof. destruct e; simpl; apply _. Defined.

End TraceKinds.

(** The number of occurrences of a character in a string. *)
Fixpoint occurrences (c : Ascii.ascii) (s : string) : nat :=
  match s with
  | EmptyString => 0
  | String c' rest =>
      (if Ascii.eqb c c' then 1 else 0) + occurrences c rest
  end.

(** ** [LockedServices]

    [instance.Config] and [flux.ServiceIDSet] are declared outside this
    file.  Of a service's configuration the function reads the [Locked]
    flag; the configuration type is a parameter with that flag.  A
    [flux.ServiceIDSet] is modelled as a finite set of identifiers, [{}] as
    the empty set, and its method [Add] is a parameter. *)
Section Locking.
Context {ServiceConfig : Type} (Locked : ServiceConfig → bool).
Context (Add : gset ServiceID → list ServiceID → gset ServiceID).

Record Config := {
  Services : gmap ServiceID ServiceConfig
}.

(** The slice [ids] after the loop of lines 17-21.  Go visits the entries of
    a map in an unspecified order; the model visits them in the order of
    [map_to_list]. *)
Definition lockedIDs (config : Config) : list ServiceID :=
  foldl (λ ids kv, if Locked kv.2 then ids ++ [kv.1] else ids)
        [] (map_to_list (Services config)).

Definition LockedServices (config : Config) : gset ServiceID :=
  let ids := lockedIDs config in
  let idSet : gset ServiceID := ∅ in
  Add idSet ids.

End Locking.

(** A sample configuration type and the set semantics of [Add]. *)
Module SampleLocking.

Record ServiceSettings := { Automated : bool; IsLocked : bool }.

Definition addAll (s : gset ServiceID) (ids : list ServiceID) : gset ServiceID :=
  s ∪ list_to_set ids.

Definition config : Config :=
  {| Services :=
       {[ "ns/web" := {| Automated := true; IsLocked := true |};
          "ns/api" := {| Automated := true; IsLocked := false |} ]} |}.

End SampleLocking.


(** * Proofs *)

Section Proofs.
Context `{Collaborators}.

Implicit Types (w : World) (m : gmap ServiceID ServiceResult).
Implicit Types (updates : list ServiceUpdate) (id : ServiceID).
Implicit Types (defs asyncDefs : list ServiceDefinition).

Lemma bind_run {A B} (c : M A) (k : A → M B) w :
  (c ≫= k) w = k (c w).1 (c w).2.
Proof. unfold mbind, M_bind. by destruct (c w). Qed.

Lemma world_eta w :
  {| results := results w; platform := platform w; trace := trace w |} = w.
Proof. by destruct w. Qed.

Lemma provisional_idemp (r : ServiceResult) :
  provisional (provisional r) = provisional r.
Proof. done. Qed.

(** *** Loops of writes *)

Lemma forEach_writeResult {A} (l : list A)
    (key : A → ServiceID) (val : A → ServiceResult) w :
  forEach l (λ x, writeResult (key x) (val x)) w
  = (tt, {| results := foldl (λ m x, <[key x := val x]> m) (results w) l;
            platform := platform w;
            trace := trace w ++ ((λ x, WriteResult (key x) (val x)) <$> l) |}).
Proof.
  revert w. induction l as [|x l IH]; intros w; simpl.
  - by rewrite app_nil_r, world_eta.
  - rewrite bind_run, IH. simpl. by rewrite <- app_assoc.
Qed.

Lemma foldl_insert_notin {A} (l : list A)
    (key : A → ServiceID) (val : A → ServiceResult) m id :
  id ∉ key <$> l →
  foldl (λ m x, <[key x := val x]> m) m l !! id = m !! id.
Proof.
  revert m. induction l as [|x l IH]; intros m Hid; simpl; [done|].
  rewrite fmap_cons, not_elem_of_cons in Hid. destruct Hid as [Hne Hid].
  rewrite IH by done. by rewrite lookup_insert_ne.
Qed.

Lemma foldl_insert_const {A} (l : list A)
    (key : A → ServiceID) (v : ServiceResult) m id :
  id ∈ key <$> l →
  foldl (λ m x, <[key x := v]> m) m l !! id = Some v.
Proof.
  revert m. induction l as [|x l IH]; intros m Hid; simpl.
  - by apply elem_of_nil in Hid.
  - destruct (decide (id ∈ key <$> l)) as [Hin|Hnot]; [by apply IH|].
    rewrite (foldl_insert_notin l key (λ _, v)) by done.
    rewrite fmap_cons, elem_of_cons in Hid.
    destruct Hid as [->|?]; [|done]. by rewrite lookup_insert_eq.
Qed.

Lemma foldl_insert_nodup {A} (l : list A)
    (key : A → ServiceID) (val : A → ServiceResult) m x :
  NoDup (key <$> l) → x ∈ l →
  foldl (λ m x, <[key x := val x]> m) m l !! key x = Some (val x).
Proof.
  revert m. induction l as [|y l IH]; intros m Hnd Hx; simpl.
  - by apply elem_of_nil in Hx.
  - rewrite fmap_cons, NoDup_cons in Hnd. destruct Hnd as [Hy Hnd].
    apply elem_of_cons in Hx as [->|Hx]; [|by apply IH].
    rewrite foldl_insert_notin by done. by rewrite lookup_insert_eq.
Qed.

Lemma markUnknown_run updates (e : error) w :
  markUnknown updates e w
  = (tt, {| results := foldl (λ m u, <[update_ServiceID u :=
                                         unknownResult (errorMessage e)]> m)
                             (results w) updates;
            platform := platform w;
            trace := trace w
                     ++ ((λ u, WriteResult (update_ServiceID u)
                                 (unknownResult (errorMessage e))) <$> updates) |}).
Proof. apply forEach_writeResult. Qed.

Lemma markFailed_run (err : gmap ServiceID string) w :
  markFailed err w
  = (tt, {| results := foldl (λ m kv, <[kv.1 := failedResult kv.2]> m)
                             (results w) (map_to_list err);
            platform := platform w;
            trace := trace w
                     ++ ((λ kv, WriteResult kv.1 (failedResult kv.2))
                           <$> map_to_list err) |}).
Proof. apply (forEach_writeResult _ fst (λ kv, failedResult kv.2)). Qed.

Lemma markFailed_lookup (err : gmap ServiceID string) w id :
  results (markFailed err w).2 !! id
  = match err !! id with
    | Some cause => Some (failedResult cause)
    | None => results w !! id
    end.
Proof.
  rewrite markFailed_run. simpl.
  destruct (err !! id) as [cause|] eqn:Hid.
  - apply elem_of_map_to_list in Hid.
    apply (foldl_insert_nodup _ fst (λ kv, failedResult kv.2) _ (id, cause));
      [apply NoDup_fst_map_to_list | done].
  - apply (foldl_insert_notin _ fst (λ kv, failedResult kv.2)).
    intros Hin. apply list_elem_of_fmap in Hin as [[k c] [-> Hin]].
    apply elem_of_map_to_list in Hin. simpl in Hid. congruence.
Qed.

Lemma markUnknown_lookup updates (e : error) w id :
  results (markUnknown updates e w).2 !! id
  = if decide (id ∈ update_ServiceID <$> updates)
    then Some (unknownResult (errorMessage e))
    else results w !! id.
Proof.
  rewrite markUnknown_run. simpl. case_decide.
  - by apply foldl_insert_const.
  - by apply (foldl_insert_notin _ update_ServiceID (λ _, unknownResult _)).
Qed.

(** *** The first loop *)

Lemma startUpdate_run (update : ServiceUpdate) defs asyncDefs w :
  startUpdate update defs asyncDefs w
  = ((if decide (isSelf update) then (defs, asyncDefs ++ [asyncDef update])
      else (defs ++ [syncDef update], asyncDefs)),
     {| results := primeStep (results w) update;
        platform := platform w;
        trace := trace w
                 ++ [startingEvent update;
                     WriteResult (update_ServiceID update)
                       (provisional (lookupResult (results w)
                                       (update_ServiceID update)))] |}).
Proof.
  unfold startUpdate, startingEvent, isSelf, primeStep.
  destruct (Components (update_ServiceID update)) as [namespace serviceName].
  simpl. case_decide; rewrite !bind_run; simpl; by rewrite <- app_assoc.
Qed.

Lemma startUpdates_run updates defs asyncDefs w :
  startUpdates updates defs asyncDefs w
  = ((defs ++ (syncDef <$> filter (λ u, ¬ isSelf u) updates),
      asyncDefs ++ (asyncDef <$> filter isSelf updates)),
     {| results := primed updates (results w);
        platform := platform w;
        trace := trace w ++ startEffects updates (results w) |}).
Proof.
  revert defs asyncDefs w.
  induction updates as [|u updates IH]; intros defs asyncDefs w; simpl.
  - by rewrite !app_nil_r, world_eta.
  - rewrite bind_run, startUpdate_run.
    rewrite filter_cons, (filter_cons isSelf).
    destruct (decide (isSelf u)) as [Hs|Hs]; simpl.
    + rewrite decide_False by tauto. rewrite IH. simpl.
      by rewrite <- !app_assoc.
    + rewrite decide_True by done. rewrite IH. simpl.
      by rewrite <- !app_assoc.
Qed.

Lemma lookupResult_primeStep m (u : ServiceUpdate) id :
  provisional (lookupResult (primeStep m u) id)
  = provisional (lookupResult m id).
Proof.
  unfold primeStep, lookupResult.
  destruct (decide (update_ServiceID u = id)) as [->|Hne].
  - by rewrite lookup_insert_eq.
  - by rewrite lookup_insert_ne.
Qed.

Lemma primed_lookup updates m id :
  primed updates m !! id
  = if decide (id ∈ update_ServiceID <$> updates)
    then Some (provisional (lookupResult m id))
    else m !! id.
Proof.
  revert m. induction updates as [|u updates IH]; intros m.
  - rewrite decide_False; [done | apply not_elem_of_nil].
  - change (primed (u :: updates) m) with (primed updates (primeStep m u)).
    rewrite IH, fmap_cons. destruct (decide (id ∈ update_ServiceID <$> updates)).
    + rewrite decide_True by (apply elem_of_cons; auto).
      by rewrite lookupResult_primeStep.
    + unfold primeStep. destruct (decide (update_ServiceID u = id)) as [<-|Hne].
      * rewrite decide_True by (apply elem_of_cons; auto).
        by rewrite lookup_insert_eq.
      * rewrite decide_False; [by rewrite lookup_insert_ne|].
        rewrite not_elem_of_cons. split; [congruence | done].
Qed.

Lemma startEffects_shape updates m :
  Forall (startEffectOf updates m) (startEffects updates m).
Proof.
  revert m. induction updates as [|u updates IH]; intros m; simpl; [constructor|].
  constructor.
  { unfold startingEvent. destruct (Components _). by case_decide. }
  constructor.
  { split; [apply elem_of_cons; auto | done]. }
  eapply Forall_impl; [apply IH|].
  intros [ | |id r| ]; simpl; try done.
  intros [Hin ->]. split.
  - apply elem_of_cons. auto.
  - apply lookupResult_primeStep.
Qed.

(** *** Replaying the writes of a trace *)

Lemma replay_app (es1 es2 : list Effect) m :
  replay (es1 ++ es2) m = replay es2 (replay es1 m).
Proof.
  revert m. induction es1 as [|e es1 IH]; intros m; [done|].
  destruct e; simpl; apply IH.
Qed.

Lemma replay_startEffects updates m :
  replay (startEffects updates m) m = primed updates m.
Proof.
  revert m. induction updates as [|u updates IH]; intros m; [done|].
  simpl. unfold startingEvent. destruct (Components _).
  case_decide; simpl; apply IH.
Qed.

Lemma replay_writes {A} (l : list A)
    (key : A → ServiceID) (val : A → ServiceResult) m :
  replay ((λ x, WriteResult (key x) (val x)) <$> l) m
  = foldl (λ m x, <[key x := val x]> m) m l.
Proof. revert m. induction l as [|x l IH]; intros m; [done|]. apply IH. Qed.

Lemma replay_no_write (es : list Effect) m :
  Forall (λ e, ¬ isWrite e) es → replay es m = m.
Proof.
  induction 1 as [|e es He _ IH]; [done|].
  destruct e; simpl in *; tauto.
Qed.

(** *** Reporting and the asynchronous apply *)

Lemma reportResult_run (def : ServiceDefinition) w :
  reportResult def w = (tt, emit (reportEffect (results w) def) w).
Proof.
  unfold reportResult, reportEffect. rewrite bind_run. simpl.
  destruct (Components (def_ServiceID def)) as [namespace serviceName].
  by destruct (Status (lookupResult (results w) (def_ServiceID def))).
Qed.

Lemma forEach_reportResult defs w :
  forEach defs reportResult w
  = (tt, {| results := results w;
            platform := platform w;
            trace := trace w ++ (reportEffect (results w) <$> defs) |}).
Proof.
  revert w. induction defs as [|d defs IH]; intros w; simpl.
  - by rewrite app_nil_r, world_eta.
  - rewrite bind_run, reportResult_run, IH. simpl. by rewrite <- app_assoc.
Qed.

Lemma reportEffect_not_write m (def : ServiceDefinition) :
  ¬ isWrite (reportEffect m def) ∧ ¬ isApply (reportEffect m def).
Proof.
  unfold reportEffect. destruct (Components _).
  destruct (Status _); simpl; tauto.
Qed.

Lemma applyAsync_run asyncDefs w :
  applyAsync asyncDefs w
  = (tt, {| results := results w;
            platform := if decide (0 < length asyncDefs)
                        then (PlatformApply (platform w) asyncDefs).2
                        else platform w;
            trace := trace w ++ asyncEffects asyncDefs |}).
Proof.
  unfold applyAsync, asyncEffects. case_decide.
  - rewrite bind_run. unfold platformApply.
    by destruct (PlatformApply (platform w) asyncDefs).
  - simpl. by rewrite app_nil_r, world_eta.
Qed.

Lemma reportAndFinish_run defs asyncDefs (e : option error) w :
  reportAndFinish defs asyncDefs e w
  = (e, {| results := results w;
           platform := if decide (0 < length asyncDefs)
                       then (PlatformApply (platform w) asyncDefs).2
                       else platform w;
           trace := trace w ++ (reportEffect (results w) <$> defs)
                            ++ asyncEffects asyncDefs |}).
Proof.
  unfold reportAndFinish.
  rewrite bind_run, forEach_reportResult, bind_run, applyAsync_run. simpl.
  by rewrite <- app_assoc.
Qed.

Lemma filter_none {A} (P : A → Prop) `{∀ x, Decision (P x)} (l : list A) :
  Forall (λ x, ¬ P x) l → filter P l = [].
Proof.
  induction 1 as [|x l Hx _ IH]; [done|].
  by rewrite filter_cons, decide_False.
Qed.

Lemma startEffects_no_apply updates m :
  filter isApply (startEffects updates m) = [].
Proof.
  apply filter_none. eapply Forall_impl; [apply startEffects_shape|].
  intros [ | | | ]; simpl; tauto.
Qed.


(** *** The whole function *)

Lemma partitions_eq updates w :
  partitions updates w
  = (syncDef <$> filter (λ u, ¬ isSelf u) updates,
     asyncDef <$> filter isSelf updates).
Proof. unfold partitions. by rewrite startUpdates_run. Qed.

Lemma atApply_eq updates w :
  atApply updates w
  = {| results := primed updates (results w);
       platform := platform w;
       trace := trace w ++ startEffects updates (results w) |}.
Proof. unfold atApply. by rewrite startUpdates_run. Qed.

Lemma applyChanges_run updates w :
  applyChanges updates w
  = match transactionErrOf updates w with
    | Some (OtherError msg) => (Some (OtherError msg), afterRecording updates w)
    | e => reportAndFinish (partitions updates w).1 (partitions updates w).2 e
             (afterRecording updates w)
    end.
Proof.
  unfold applyChanges, afterRecording, transactionErrOf, partitions, atApply.
  rewrite bind_run.
  destruct (startUpdates updates [] [] w) as [[defs asyncDefs] w1]. simpl.
  rewrite bind_run.
  destruct (platformApply defs w1) as [[[err|msg]|] w2]; simpl;
    by rewrite ?bind_run.
Qed.

Lemma afterRecording_trace updates w :
  trace (afterRecording updates w)
  = trace (atApply updates w)
    ++ Apply (partitions updates w).1
    :: recordingWrites updates (transactionErrOf updates w).
Proof.
  unfold afterRecording, recordingWrites.
  set (defs := (partitions updates w).1).
  assert (trace (platformApply defs (atApply updates w)).2
          = trace (atApply updates w) ++ [Apply defs]) as Ht.
  { unfold platformApply. by destruct (PlatformApply _ _). }
  destruct (transactionErrOf updates w) as [[err|msg]|].
  - rewrite markFailed_run. simpl. by rewrite Ht, <- app_assoc.
  - rewrite markUnknown_run. simpl. by rewrite Ht, <- app_assoc.
  - by rewrite Ht.
Qed.

Lemma afterRecording_lookup updates w id :
  results (afterRecording updates w) !! id
  = match transactionErrOf updates w with
    | None => primed updates (results w) !! id
    | Some (ApplyError err) =>
        match err !! id with
        | Some cause => Some (failedResult cause)
        | None => primed updates (results w) !! id
        end
    | Some (OtherError msg) =>
        if decide (id ∈ update_ServiceID <$> updates)
        then Some (unknownResult msg)
        else primed updates (results w) !! id
    end.
Proof.
  unfold afterRecording.
  set (defs := (partitions updates w).1).
  assert (results (platformApply defs (atApply updates w)).2
          = primed updates (results w)) as Hr.
  { unfold platformApply. rewrite atApply_eq. by destruct (PlatformApply _ _). }
  destruct (transactionErrOf updates w) as [[err|msg]|].
  - by rewrite markFailed_lookup, Hr.
  - by rewrite markUnknown_lookup, Hr.
  - by rewrite Hr.
Qed.

Lemma applyChanges_returns updates w :
  (applyChanges updates w).1 = transactionErrOf updates w.
Proof.
  rewrite applyChanges_run.
  destruct (transactionErrOf updates w) as [[err|msg]|];
    by rewrite ?reportAndFinish_run.
Qed.

Lemma applyChanges_results updates w :
  results (applyChanges updates w).2 = results (afterRecording updates w).
Proof.
  rewrite applyChanges_run.
  destruct (transactionErrOf updates w) as [[err|msg]|];
    by rewrite ?reportAndFinish_run.
Qed.

Lemma applyChanges_trace updates w :
  trace (applyChanges updates w).2
  = trace (afterRecording updates w)
    ++ if decide (isCoverall (transactionErrOf updates w)) then []
       else finishEffects (results (afterRecording updates w))
              (partitions updates w).1 (partitions updates w).2.
Proof.
  rewrite applyChanges_run.
  destruct (transactionErrOf updates w) as [[err|msg]|]; simpl;
    rewrite ?reportAndFinish_run; simpl; by rewrite ?app_nil_r.
Qed.

Lemma applyChanges_trace_full updates w :
  trace (applyChanges updates w).2
  = trace w ++ startEffects updates (results w)
    ++ Apply (partitions updates w).1
    :: recordingWrites updates (transactionErrOf updates w)
    ++ if decide (isCoverall (transactionErrOf updates w)) then []
       else finishEffects (results (afterRecording updates w))
              (partitions updates w).1 (partitions updates w).2.
Proof.
  rewrite applyChanges_trace, afterRecording_trace, atApply_eq. simpl.
  by rewrite <- !app_assoc.
Qed.

Lemma recordingWrites_shape updates (e : option error) :
  Forall (λ x, ∃ id r, x = WriteResult id r
                 ∧ (id ∈ update_ServiceID <$> updates
                    ∨ ∃ err, e = Some (ApplyError err) ∧ is_Some (err !! id)))
         (recordingWrites updates e).
Proof.
  destruct e as [[err|msg]|]; simpl; [| |constructor].
  - apply Forall_fmap, Forall_forall. intros [id cause] Hin. simpl.
    apply elem_of_map_to_list in Hin. eauto 8.
  - apply Forall_fmap, Forall_forall. intros u Hu. simpl.
    exists (update_ServiceID u), (unknownResult msg). split; [done|].
    left. by apply list_elem_of_fmap_2.
Qed.

Lemma recordingWrites_isWrite updates (e : option error) :
  Forall isWrite (recordingWrites updates e).
Proof.
  eapply Forall_impl; [apply recordingWrites_shape|].
  by intros x (id & r & -> & _).
Qed.

Lemma asyncEffects_nonempty asyncDefs :
  asyncEffects asyncDefs
  = if decide (asyncDefs ≠ []) then [Apply asyncDefs] else [].
Proof.
  unfold asyncEffects. by destruct asyncDefs as [|d asyncDefs].
Qed.

(** The ledger entry the reporting loop reads for a synchronous definition:
    the provisional one, or a failure written from a [platform.ApplyError]. *)
Lemma reported_result updates w (d : ServiceDefinition) :
  ¬ isCoverall (transactionErrOf updates w) →
  d ∈ (partitions updates w).1 →
  lookupResult (results (afterRecording updates w)) (def_ServiceID d)
  = provisional (lookupResult (results w) (def_ServiceID d))
  ∨ ∃ cause,
      lookupResult (results (afterRecording updates w)) (def_ServiceID d)
      = failedResult cause.
Proof.
  intros Hnc Hd. rewrite partitions_eq in Hd. simpl in Hd.
  apply list_elem_of_fmap in Hd as (u & -> & Hu).
  apply list_elem_of_filter in Hu as [_ Hu].
  assert (update_ServiceID u ∈ update_ServiceID <$> updates) as Hin
    by by apply list_elem_of_fmap_2.
  unfold lookupResult at 1 3. rewrite afterRecording_lookup. simpl.
  destruct (transactionErrOf updates w) as [[err|msg]|]; simpl in *.
  - destruct (err !! update_ServiceID u) as [cause|]; [by eauto|].
    rewrite primed_lookup, decide_True by done. by left.
  - tauto.
  - rewrite primed_lookup, decide_True by done. by left.
Qed.


(** The trace accounts for the ledger: the ledger after a call is the
    ledger before it with the writes of the call replayed in order. *)
Lemma applyChanges_results_replay updates w :
  results (applyChanges updates w).2
  = replay (drop (length (trace w)) (trace (applyChanges updates w).2))
           (results w).
Proof.
  rewrite applyChanges_results, applyChanges_trace_full, drop_app_length.
  rewrite replay_app, replay_startEffects. simpl. rewrite replay_app.
  rewrite (replay_no_write (if decide _ then _ else _)).
  2:{ case_decide; [constructor|]. unfold finishEffects, asyncEffects.
      apply Forall_app. split.
      - apply Forall_fmap, Forall_forall. intros d _.
        apply reportEffect_not_write.
      - case_decide; repeat constructor. simpl. tauto. }
  unfold afterRecording, recordingWrites.
  set (defs := (partitions updates w).1).
  assert (results (platformApply defs (atApply updates w)).2
          = primed updates (results w)) as Hr.
  { unfold platformApply. rewrite atApply_eq. by destruct (PlatformApply _ _). }
  destruct (transactionErrOf updates w) as [[err|msg]|].
  - rewrite markFailed_run. simpl.
    by rewrite (replay_writes _ fst (λ kv, failedResult kv.2)), Hr.
  - rewrite markUnknown_run. simpl.
    by rewrite (replay_writes _ update_ServiceID (λ _, unknownResult msg)), Hr.
  - by rewrite Hr.
Qed.


(** ** Claims *)

(** C9, as amended.  A record with no container change is summarised as
    ["(no image changes)"]; a single change [(c, a, b)] is rendered as the
    container name, then the current image reference in full and, after the
    arrow, the tag of the target image reference only; several changes are
    rendered one by one and joined with [", "]. *)
Theorem summariseUpdate_renders_target_tag :
  summariseUpdate [] = "(no image changes)"
  ∧ (∀ c : ContainerUpdate,
       summariseUpdate [c]
       = Container c +:+ " (" +:+ ImageString (Current c) +:+ " -> "
           +:+ Tag (Target c) +:+ ")")
  ∧ (∀ (c c' : ContainerUpdate) rest,
       summariseUpdate (c :: c' :: rest)
       = summariseUpdate [c] +:+ ", " +:+ summariseUpdate (c' :: rest)).
Proof. done. Qed.

(** C4.  The first loop appends a record to [asyncDefs] exactly when the
    service-name component of its identifier is [FluxServiceName] or
    [FluxDaemonName], and to [defs] otherwise; each slice lists its records
    in input order, and together they hold as many entries as the batch. *)
Theorem partition_by_reserved_name updates w :
  (partitions updates w).2 = asyncDef <$> filter isSelf updates
  ∧ (partitions updates w).1 = syncDef <$> filter (λ u, ¬ isSelf u) updates
  ∧ length (partitions updates w).1 + length (partitions updates w).2
    = length updates.
Proof.
  rewrite partitions_eq. simpl. split; [done|]. split; [done|].
  rewrite !length_fmap, Nat.add_comm, <- length_app.
  apply Permutation_length, filter_app_complement.
Qed.

(** C5.  In the world in which the ordinary apply is issued, the ledger
    entry of every record of the batch, of either partition, has status
    [ReleaseStatusSuccess] and the [Error] and [PerContainer] the ledger held
    for that service when [applyChanges] was called.  The platform has not
    been called by then, and the ordinary apply is the next effect. *)
Theorem provisional_success_before_apply updates w (u : ServiceUpdate) :
  u ∈ updates →
  results (atApply updates w) !! update_ServiceID u
  = Some {| Status := ReleaseStatusSuccess;
            Error := Error (lookupResult (results w) (update_ServiceID u));
            PerContainer :=
              PerContainer (lookupResult (results w) (update_ServiceID u)) |}
  ∧ filter isApply (drop (length (trace w)) (trace (atApply updates w))) = []
  ∧ platform (atApply updates w) = platform w
  ∧ ∃ rest, trace (applyChanges updates w).2
            = trace (atApply updates w) ++ Apply (partitions updates w).1 :: rest.
Proof.
  intros Hu. split; [|split; [|split]].
  - rewrite atApply_eq. simpl. rewrite primed_lookup.
    rewrite decide_True; [done|]. by apply list_elem_of_fmap_2.
  - rewrite atApply_eq. simpl. rewrite drop_app_length.
    apply startEffects_no_apply.
  - by rewrite atApply_eq.
  - rewrite applyChanges_trace, afterRecording_trace, <- app_assoc. eauto.
Qed.

(** C1.  When the ordinary apply returns an error that is not a
    [platform.ApplyError], [applyChanges] returns that error, the ledger
    entry of every record of the batch is [ReleaseStatusUnknown] with the
    message of the error, and the effects that follow the first loop are the
    ordinary apply and one such write per record of the batch: nothing is
    logged after the apply and the platform is not called again. *)
Theorem coverall_error_marks_batch_unknown updates w msg :
  transactionErrOf updates w = Some (OtherError msg) →
  (applyChanges updates w).1 = Some (OtherError msg)
  ∧ (∀ u : ServiceUpdate, u ∈ updates →
       results (applyChanges updates w).2 !! update_ServiceID u
       = Some {| Status := ReleaseStatusUnknown; Error := msg;
                 PerContainer := [] |})
  ∧ trace (applyChanges updates w).2
    = trace (atApply updates w)
      ++ Apply (partitions updates w).1
      :: ((λ u, WriteResult (update_ServiceID u)
                  {| Status := ReleaseStatusUnknown; Error := msg;
                     PerContainer := [] |}) <$> updates).
Proof.
  intros He. split; [|split].
  - by rewrite applyChanges_returns.
  - intros u Hu. rewrite applyChanges_results, afterRecording_lookup, He.
    rewrite decide_True; [done|]. by apply list_elem_of_fmap_2.
  - rewrite applyChanges_trace, afterRecording_trace, He. simpl.
    by rewrite app_nil_r.
Qed.

(** C2.  When the ordinary apply returns a [platform.ApplyError], the ledger
    entry of every service the error names is [ReleaseStatusFailed] with the
    cause mapped to it, and the entry of every ordinary record the error does
    not name is the one the first loop wrote, with status
    [ReleaseStatusSuccess]. *)
Theorem per_service_error_marks_named_failed updates w
    (err : gmap ServiceID string) :
  transactionErrOf updates w = Some (ApplyError err) →
  (∀ id cause, err !! id = Some cause →
     results (applyChanges updates w).2 !! id
     = Some {| Status := ReleaseStatusFailed; Error := cause;
               PerContainer := [] |})
  ∧ (∀ u : ServiceUpdate, u ∈ updates → ¬ isSelf u →
       err !! update_ServiceID u = None →
       results (applyChanges updates w).2 !! update_ServiceID u
       = results (atApply updates w) !! update_ServiceID u
       ∧ Status (lookupResult (results (applyChanges updates w).2)
                   (update_ServiceID u)) = ReleaseStatusSuccess).
Proof.
  intros He. split.
  - intros id cause Hid.
    by rewrite applyChanges_results, afterRecording_lookup, He, Hid.
  - intros u Hu _ Hid. unfold lookupResult.
    rewrite applyChanges_results, afterRecording_lookup, He, Hid.
    rewrite atApply_eq. simpl. rewrite primed_lookup.
    rewrite decide_True; [done|]. by apply list_elem_of_fmap_2.
Qed.


(** C3, as amended.  When the ordinary apply returns a
    [platform.ApplyError], the function records a failure in the ledger for
    each service the error names, goes on with lines 98-127 (reporting and
    the asynchronous apply) and returns that same error to its caller. *)
Theorem per_service_error_recorded_and_returned updates w
    (err : gmap ServiceID string) :
  transactionErrOf updates w = Some (ApplyError err) →
  (applyChanges updates w).1 = Some (ApplyError err)
  ∧ applyChanges updates w
    = reportAndFinish (partitions updates w).1 (partitions updates w).2
        (Some (ApplyError err)) (afterRecording updates w)
  ∧ (∀ id cause, err !! id = Some cause →
       results (afterRecording updates w) !! id
       = Some {| Status := ReleaseStatusFailed; Error := cause;
                 PerContainer := [] |}).
Proof.
  intros He. split; [|split].
  - by rewrite applyChanges_returns.
  - by rewrite applyChanges_run, He.
  - intros id cause Hid. by rewrite afterRecording_lookup, He, Hid.
Qed.

(** C6, as amended.  The ledger entry of a service that is neither in the
    batch nor named by a [platform.ApplyError] returned by the ordinary apply
    is never written: it is the same after the call as before, and the call
    adds no write for it to the trace. *)
Theorem untouched_outside_batch_and_error updates w id :
  id ∉ update_ServiceID <$> updates →
  (∀ err, transactionErrOf updates w = Some (ApplyError err) →
          err !! id = None) →
  results (applyChanges updates w).2 !! id = results w !! id
  ∧ ∀ r, WriteResult id r ∈ trace (applyChanges updates w).2 →
         WriteResult id r ∈ trace w.
Proof.
  intros Hid Herr. split.
  - rewrite applyChanges_results, afterRecording_lookup.
    destruct (transactionErrOf updates w) as [[err|msg]|].
    + rewrite (Herr err) by done. by rewrite primed_lookup, decide_False.
    + by rewrite decide_False, primed_lookup, decide_False.
    + by rewrite primed_lookup, decide_False.
  - intros r. rewrite applyChanges_trace_full.
    rewrite !elem_of_app, elem_of_cons, elem_of_app.
    intros [?|[Hin|[?|[Hin|Hin]]]]; [done| |done| |].
    + pose proof (startEffects_shape updates (results w)) as Hs.
      rewrite Forall_forall in Hs. apply Hs in Hin. simpl in Hin. tauto.
    + pose proof (recordingWrites_shape updates (transactionErrOf updates w))
        as Hs.
      rewrite Forall_forall in Hs.
      apply Hs in Hin as (id' & r' & [= <- <-] & [?|(err & He & Hsome)]);
        [done|].
      rewrite (Herr err He) in Hsome. by destruct Hsome.
    + case_decide; [by apply elem_of_nil in Hin|].
      unfold finishEffects in Hin. apply elem_of_app in Hin as [Hin|Hin].
      * apply list_elem_of_fmap in Hin as (d & Hd & _).
        destruct (reportEffect_not_write
                    (results (afterRecording updates w)) d) as [Hw _].
        rewrite <- Hd in Hw. simpl in Hw. tauto.
      * unfold asyncEffects in Hin. case_decide.
        -- by apply list_elem_of_singleton in Hin.
        -- by apply elem_of_nil in Hin.
Qed.

(** C7, as amended.  Among the effects of a call, the platform is applied
    to [defs] and then, exactly when [asyncDefs] is not empty and the first
    answer is not a coverall error, once to [asyncDefs].  That second call
    comes last, after the report of every synchronous definition; the ledger
    is the one the reporting loop started from, and the value returned is
    the answer to the first call.  The provisional result of a self record
    is revisited only before that call and only when a
    [platform.ApplyError] returned by the ordinary apply names its service:
    it is then [ReleaseStatusFailed] with the mapped cause; in every other
    run that reaches the asynchronous apply it is the entry the first loop
    wrote, with status [ReleaseStatusSuccess]. *)
Theorem async_apply_once_last_ignored updates w :
  filter isApply (drop (length (trace w)) (trace (applyChanges updates w).2))
  = Apply (partitions updates w).1
    :: (if decide ((partitions updates w).2 ≠ []
                   ∧ ¬ isCoverall (transactionErrOf updates w))
        then [Apply (partitions updates w).2] else [])
  ∧ trace (applyChanges updates w).2
    = trace (afterRecording updates w)
      ++ (if decide (isCoverall (transactionErrOf updates w)) then []
          else (reportEffect (results (afterRecording updates w))
                  <$> (partitions updates w).1)
               ++ (if decide ((partitions updates w).2 ≠ [])
                   then [Apply (partitions updates w).2] else []))
  ∧ results (applyChanges updates w).2 = results (afterRecording updates w)
  ∧ (applyChanges updates w).1 = transactionErrOf updates w
  ∧ (∀ u : ServiceUpdate, u ∈ updates → isSelf u →
       ¬ isCoverall (transactionErrOf updates w) →
       (∀ err, transactionErrOf updates w = Some (ApplyError err) →
               err !! update_ServiceID u = None) →
       results (applyChanges updates w).2 !! update_ServiceID u
       = results (atApply updates w) !! update_ServiceID u
       ∧ Status (lookupResult (results (applyChanges updates w).2)
                   (update_ServiceID u)) = ReleaseStatusSuccess)
  ∧ (∀ (u : ServiceUpdate) (err : gmap ServiceID string) cause,
       u ∈ updates → isSelf u →
       transactionErrOf updates w = Some (ApplyError err) →
       err !! update_ServiceID u = Some cause →
       results (applyChanges updates w).2 !! update_ServiceID u
       = Some {| Status := ReleaseStatusFailed; Error := cause;
                 PerContainer := [] |}).
Proof.
  split; [|split; [|split; [|split; [|split]]]].
  - rewrite applyChanges_trace_full, drop_app_length.
    rewrite filter_app, startEffects_no_apply, app_nil_l.
    rewrite filter_cons, decide_True by done. f_equal.
    rewrite filter_app, (filter_none isApply (recordingWrites _ _)), app_nil_l.
    2:{ eapply Forall_impl; [apply recordingWrites_isWrite|].
        intros [ | | | ]; simpl; tauto. }
    destruct (decide (isCoverall (transactionErrOf updates w))) as [Hc|Hc].
    + by rewrite decide_False by tauto.
    + unfold finishEffects. rewrite filter_app, filter_none.
      2:{ apply Forall_fmap, Forall_forall. intros d _.
          apply reportEffect_not_write. }
      rewrite asyncEffects_nonempty. simpl.
      destruct (decide ((partitions updates w).2 ≠ [])) as [Hn|Hn].
      * rewrite decide_True by done.
        by rewrite filter_cons, decide_True by done.
      * by rewrite decide_False by tauto.
  - rewrite applyChanges_trace. unfold finishEffects.
    by rewrite asyncEffects_nonempty.
  - apply applyChanges_results.
  - apply applyChanges_returns.
  - intros u Hu _ Hnc Hunnamed. unfold lookupResult.
    rewrite applyChanges_results, afterRecording_lookup, atApply_eq. simpl.
    assert (update_ServiceID u ∈ update_ServiceID <$> updates) as Hin
      by by apply list_elem_of_fmap_2.
    destruct (transactionErrOf updates w) as [[err|msg]|]; simpl in Hnc.
    + rewrite (Hunnamed err eq_refl), primed_lookup.
      by rewrite decide_True by done.
    + tauto.
    + by rewrite primed_lookup, decide_True by done.
  - intros u err cause _ _ He Hcause.
    by rewrite applyChanges_results, afterRecording_lookup, He, Hcause.
Qed.

(** C8, as amended.  When no coverall error occurred, the effects after the
    ordinary apply are writes to the ledger, then one result event for each
    ordinary record, in input order, then the asynchronous apply if any.
    The event of a record reads the final ledger entry of its service:
    [Success] gives ["Release <summary> succeeded"] and [Failed] gives
    ["Release <summary> failed: <Error>"], where the summary is that of the
    [PerContainer] of this ledger entry; for a [Success] entry this is the
    [PerContainer] the ledger held for the service before the call. *)
Theorem result_events_read_ledger updates w :
  ¬ isCoverall (transactionErrOf updates w) →
  ∃ writes reports,
    trace (applyChanges updates w).2
    = trace (atApply updates w)
      ++ Apply (partitions updates w).1 :: writes ++ reports
      ++ (if decide ((partitions updates w).2 ≠ [])
          then [Apply (partitions updates w).2] else [])
    ∧ Forall isWrite writes
    ∧ Forall2 (λ (u : ServiceUpdate) (e : Effect),
         let id := update_ServiceID u in
         let result := lookupResult (results (applyChanges updates w).2) id in
         (Status result = ReleaseStatusSuccess
          ∧ PerContainer result = PerContainer (lookupResult (results w) id)
          ∧ e = LogEvent (Components id).1 (Components id).2
                  ("Release " +:+ summariseUpdate (PerContainer result)
                     +:+ " succeeded"))
         ∨ (Status result = ReleaseStatusFailed
            ∧ e = LogEvent (Components id).1 (Components id).2
                    ("Release " +:+ summariseUpdate (PerContainer result)
                       +:+ " failed: " +:+ Error result)))
       (filter (λ u, ¬ isSelf u) updates) reports.
Proof.
  intros Hnc.
  exists (recordingWrites updates (transactionErrOf updates w)),
         (reportEffect (results (afterRecording updates w))
            <$> (partitions updates w).1).
  split; [|split].
  - rewrite applyChanges_trace, afterRecording_trace, decide_False by done.
    unfold finishEffects. rewrite asyncEffects_nonempty.
    by rewrite <- !app_assoc.
  - apply recordingWrites_isWrite.
  - rewrite applyChanges_results.
    assert (∀ u, u ∈ filter (λ u, ¬ isSelf u) updates →
                 syncDef u ∈ (partitions updates w).1) as Hdefs.
    { intros u Hu. rewrite partitions_eq. by apply list_elem_of_fmap_2. }
    rewrite partitions_eq. simpl. rewrite <- list_fmap_compose.
    apply Forall2_fmap_r, Forall_Forall2_diag, Forall_forall.
    intros u Hu. simpl.
    destruct (reported_result updates w (syncDef u) Hnc (Hdefs u Hu))
      as [Hr|[cause Hr]]; simpl in Hr.
    + left. unfold reportEffect. simpl. rewrite Hr.
      destruct (Components (update_ServiceID u)). by simpl.
    + right. unfold reportEffect. simpl. rewrite Hr.
      destruct (Components (update_ServiceID u)). by simpl.
Qed.

(** C10.  When the reporting loop is reached, the ledger entry it reads for
    each synchronous definition has status [ReleaseStatusSuccess] or
    [ReleaseStatusFailed], and the call logs no diagnostic. *)
Theorem reported_status_success_or_failed updates w :
  ¬ isCoverall (transactionErrOf updates w) →
  (∀ d : ServiceDefinition, d ∈ (partitions updates w).1 →
     Status (lookupResult (results (afterRecording updates w))
               (def_ServiceID d)) = ReleaseStatusSuccess
     ∨ Status (lookupResult (results (afterRecording updates w))
                 (def_ServiceID d)) = ReleaseStatusFailed)
  ∧ (∀ keyvals, Log keyvals ∈ trace (applyChanges updates w).2 →
                Log keyvals ∈ trace w)
  ∧ (∀ d : ServiceDefinition, d ∈ (partitions updates w).1 →
     ∀ namespace serviceName msg,
       reportEffect (results (afterRecording updates w)) d
       = LogEvent namespace serviceName msg →
       msg = "Release "
             +:+ summariseUpdate
                   (PerContainer (lookupResult
                      (results (afterRecording updates w)) (def_ServiceID d)))
             +:+ " succeeded"
       ∨ msg = "Release "
               +:+ summariseUpdate
                     (PerContainer (lookupResult
                        (results (afterRecording updates w)) (def_ServiceID d)))
               +:+ " failed: "
               +:+ Error (lookupResult (results (afterRecording updates w))
                            (def_ServiceID d))).
Proof.
  intros Hnc.
  assert (∀ d : ServiceDefinition, d ∈ (partitions updates w).1 →
     Status (lookupResult (results (afterRecording updates w))
               (def_ServiceID d)) = ReleaseStatusSuccess
     ∨ Status (lookupResult (results (afterRecording updates w))
                 (def_ServiceID d)) = ReleaseStatusFailed) as Hstatus.
  { intros d Hd.
    destruct (reported_result updates w d Hnc Hd) as [->|[cause ->]]; auto. }
  split; [done|]. split.
  - intros keyvals. rewrite applyChanges_trace_full.
    rewrite !elem_of_app, elem_of_cons, elem_of_app.
    intros [?|[Hin|[?|[Hin|Hin]]]]; [done| |done| |].
    + pose proof (startEffects_shape updates (results w)) as Hs.
      rewrite Forall_forall in Hs. apply Hs in Hin. by simpl in Hin.
    + pose proof (recordingWrites_isWrite updates (transactionErrOf updates w))
        as Hs.
      rewrite Forall_forall in Hs. apply Hs in Hin. by simpl in Hin.
    + rewrite decide_False in Hin by done.
      unfold finishEffects in Hin. apply elem_of_app in Hin as [Hin|Hin].
      * apply list_elem_of_fmap in Hin as (d & Heq & Hd).
        unfold reportEffect in Heq. destruct (Components _).
        by destruct (Hstatus d Hd) as [Hst|Hst]; rewrite Hst in Heq.
      * unfold asyncEffects in Hin. case_decide.
        -- by apply list_elem_of_singleton in Hin.
        -- by apply elem_of_nil in Hin.
  - intros d Hd namespace serviceName msg. unfold reportEffect.
    destruct (Components _).
    destruct (Hstatus d Hd) as [Hst|Hst]; rewrite Hst; intros [= _ _ <-]; auto.
Qed.


(** ** Further properties of [applyChanges] *)

Lemma startEffects_log_events updates m :
  filter isLogEvent (startEffects updates m) = startingEvent <$> updates.
Proof.
  revert m. induction updates as [|u updates IH]; intros m; [done|].
  simpl. rewrite filter_cons, decide_True.
  2:{ unfold startingEvent. destruct (Components _). by case_decide. }
  rewrite filter_cons, decide_False by (simpl; tauto). by rewrite IH.
Qed.

Lemma recordingWrites_status updates (e : option error) :
  Forall (λ x, ∃ id r, x = WriteResult id r
                 ∧ (Status r = ReleaseStatusFailed
                    ∨ Status r = ReleaseStatusUnknown))
         (recordingWrites updates e).
Proof.
  destruct e as [[err|msg]|]; simpl; [| |constructor];
    apply Forall_fmap, Forall_forall; intros x _; simpl; eauto 6.
Qed.

Lemma in_sync_partition updates w (u : ServiceUpdate) :
  u ∈ updates → ¬ isSelf u → syncDef u ∈ (partitions updates w).1.
Proof.
  intros Hu Hs. rewrite partitions_eq. simpl.
  apply list_elem_of_fmap_2, list_elem_of_filter. by split.
Qed.

Lemma in_async_partition updates w (u : ServiceUpdate) :
  u ∈ updates → isSelf u → asyncDef u ∈ (partitions updates w).2.
Proof.
  intros Hu Hs. rewrite partitions_eq. simpl.
  apply list_elem_of_fmap_2, list_elem_of_filter. by split.
Qed.

(** X1.  When the ordinary apply returns no error, the function returns no
    error, the ledger is left as the first loop wrote it, and the effects
    after the first loop are the ordinary apply, one ["succeeded"] event per
    ordinary record in input order, summarising the [PerContainer] the
    ledger held for the service before the call, and the asynchronous apply
    if there is a self record. *)
Theorem no_error_reports_every_ordinary_success updates w :
  transactionErrOf updates w = None →
  (applyChanges updates w).1 = None
  ∧ results (applyChanges updates w).2 = results (atApply updates w)
  ∧ trace (applyChanges updates w).2
    = trace (atApply updates w)
      ++ Apply (partitions updates w).1
      :: ((λ u : ServiceUpdate,
             LogEvent (Components (update_ServiceID u)).1
                      (Components (update_ServiceID u)).2
                      ("Release "
                       +:+ summariseUpdate
                             (PerContainer (lookupResult (results w)
                                              (update_ServiceID u)))
                       +:+ " succeeded"))
            <$> filter (λ u, ¬ isSelf u) updates)
      ++ (if decide ((partitions updates w).2 ≠ [])
          then [Apply (partitions updates w).2] else []).
Proof.
  intros He. split; [|split].
  - by rewrite applyChanges_returns.
  - rewrite applyChanges_results. apply map_eq. intros id.
    rewrite afterRecording_lookup, He. by rewrite atApply_eq.
  - rewrite applyChanges_trace, afterRecording_trace, He. simpl.
    unfold finishEffects. rewrite asyncEffects_nonempty, <- app_assoc.
    simpl. do 3 f_equal.
    rewrite partitions_eq. simpl. rewrite <- list_fmap_compose.
    apply Forall_fmap_ext, Forall_forall. intros u Hu. simpl.
    apply list_elem_of_filter in Hu as [_ Hu].
    unfold reportEffect, lookupResult at 1 2 3. simpl.
    rewrite afterRecording_lookup, He, primed_lookup.
    rewrite decide_True by by apply list_elem_of_fmap_2.
    by destruct (Components (update_ServiceID u)).
Qed.

(** X2.  The events logged by the first loop, before the platform is called,
    are one ["Starting ..."] event per record of the batch, in input order,
    summarising the changes of the record itself; the event of a self record
    ends with [". (no result expected)"]. *)
Theorem one_starting_event_per_record updates w :
  filter isLogEvent (drop (length (trace w)) (trace (atApply updates w)))
  = (λ u : ServiceUpdate,
       LogEvent (Components (update_ServiceID u)).1
                (Components (update_ServiceID u)).2
                (if decide (isSelf u)
                 then "Starting " +:+ summariseUpdate (Updates u)
                        +:+ ". (no result expected)"
                 else "Starting " +:+ summariseUpdate (Updates u)))
    <$> updates.
Proof.
  rewrite atApply_eq. simpl.
  rewrite drop_app_length, startEffects_log_events.
  apply Forall_fmap_ext, Forall_forall. intros u _.
  unfold startingEvent, isSelf.
  destruct (Components (update_ServiceID u)). simpl. by case_decide.
Qed.

(** X3.  The report of a failed ordinary record never shows its image
    changes: the write of lines 78-81 leaves [PerContainer] empty, so the
    event reads ["Release (no image changes) failed: <cause>"], whatever the
    record and the ledger held. *)
Theorem failed_event_shows_no_image_changes updates w
    (err : gmap ServiceID string) (u : ServiceUpdate) cause :
  transactionErrOf updates w = Some (ApplyError err) →
  u ∈ updates → ¬ isSelf u →
  err !! update_ServiceID u = Some cause →
  LogEvent (Components (update_ServiceID u)).1
           (Components (update_ServiceID u)).2
           ("Release (no image changes) failed: " +:+ cause)
  ∈ trace (applyChanges updates w).2.
Proof.
  intros He Hu Hs Hcause.
  rewrite applyChanges_trace, He. simpl.
  apply elem_of_app. right. unfold finishEffects. apply elem_of_app. left.
  apply list_elem_of_fmap. exists (syncDef u).
  split; [|by apply in_sync_partition].
  unfold reportEffect, lookupResult. simpl.
  rewrite afterRecording_lookup, He, Hcause.
  by destruct (Components (update_ServiceID u)).
Qed.

(** X4.  No service is handed to the platform in both calls: whether a
    record is synchronous depends on its service identifier alone, so a
    definition of [defs] and one of [asyncDefs] never name the same service.
    Every definition of [defs] has [Async] unset and every definition of
    [asyncDefs] has it set. *)
Theorem partitions_share_no_service updates w :
  (∀ d : ServiceDefinition, d ∈ (partitions updates w).1 → Async d = false)
  ∧ (∀ a : ServiceDefinition, a ∈ (partitions updates w).2 → Async a = true)
  ∧ (∀ d a : ServiceDefinition,
       d ∈ (partitions updates w).1 → a ∈ (partitions updates w).2 →
       def_ServiceID d ≠ def_ServiceID a).
Proof.
  rewrite partitions_eq. simpl. split; [|split].
  - intros d Hd. by apply list_elem_of_fmap in Hd as (u & -> & _).
  - intros a Ha. by apply list_elem_of_fmap in Ha as (u & -> & _).
  - intros d a Hd Ha.
    apply list_elem_of_fmap in Hd as (u & -> & Hu).
    apply list_elem_of_fmap in Ha as (u' & -> & Hu').
    apply list_elem_of_filter in Hu as [Hns _].
    apply list_elem_of_filter in Hu' as [Hs _].
    simpl. intros Heq. apply Hns. unfold isSelf in *. by rewrite Heq.
Qed.

(** X5.  The ledger in which the ordinary apply is issued depends on the
    batch only through the set of services it names: listing a service
    twice, or listing the records in another order, gives the same ledger. *)
Theorem provisional_ledger_depends_on_services_only updates1 updates2 w :
  (∀ id, id ∈ update_ServiceID <$> updates1
         ↔ id ∈ update_ServiceID <$> updates2) →
  results (atApply updates1 w) = results (atApply updates2 w).
Proof.
  intros Hsame. rewrite !atApply_eq. simpl. apply map_eq. intros id.
  rewrite !primed_lookup.
  destruct (decide (id ∈ update_ServiceID <$> updates1)) as [Hin|Hin].
  - by rewrite decide_True by by apply Hsame.
  - rewrite decide_False; [done|]. by rewrite <- Hsame.
Qed.

(** X6.  A [platform.ApplyError] naming a self record marks it [Failed] in
    the ledger and still does not stop the asynchronous apply: the record is
    part of [asyncDefs], and handing [asyncDefs] to the platform is the last
    thing the call does. *)
Theorem per_service_error_does_not_stop_async updates w
    (err : gmap ServiceID string) (u : ServiceUpdate) cause :
  transactionErrOf updates w = Some (ApplyError err) →
  u ∈ updates → isSelf u →
  err !! update_ServiceID u = Some cause →
  results (applyChanges updates w).2 !! update_ServiceID u
  = Some {| Status := ReleaseStatusFailed; Error := cause;
            PerContainer := [] |}
  ∧ asyncDef u ∈ (partitions updates w).2
  ∧ last (trace (applyChanges updates w).2)
    = Some (Apply (partitions updates w).2).
Proof.
  intros He Hu Hs Hcause.
  pose proof (in_async_partition updates w u Hu Hs) as Hin.
  split; [|split; [done|]].
  - by rewrite applyChanges_results, afterRecording_lookup, He, Hcause.
  - rewrite applyChanges_trace, He. simpl. unfold finishEffects.
    rewrite asyncEffects_nonempty, decide_True.
    2:{ intros Hnil. rewrite Hnil in Hin. by apply elem_of_nil in Hin. }
    by rewrite !app_assoc, last_snoc.
Qed.

(** X7.  On an empty batch the platform is still called, once, with an empty
    list of definitions, and its answer is returned, whatever the answer:
    apart from writes to the ledger, that call is the only effect.  Unless
    the answer is a [platform.ApplyError] that names services, the ledger is
    left untouched and there is no other effect at all. *)
Theorem empty_batch_calls_platform_once w :
  (applyChanges [] w).1 = (PlatformApply (platform w) []).1
  ∧ filter (λ e, ¬ isWrite e)
      (drop (length (trace w)) (trace (applyChanges [] w).2))
    = [Apply []]
  ∧ ((∀ err, transactionErrOf [] w = Some (ApplyError err) → err = ∅) →
     results (applyChanges [] w).2 = results w
     ∧ trace (applyChanges [] w).2 = trace w ++ [Apply []]).
Proof.
  split; [|split].
  - rewrite applyChanges_returns. unfold transactionErrOf, platformApply.
    rewrite partitions_eq, atApply_eq. simpl.
    by destruct (PlatformApply (platform w) []).
  - rewrite applyChanges_trace_full, drop_app_length, partitions_eq. simpl.
    rewrite filter_cons, decide_True by (simpl; tauto). f_equal.
    rewrite filter_app, filter_none.
    2:{ eapply Forall_impl; [apply (recordingWrites_isWrite []) |].
        intros e He. tauto. }
    by case_decide.
  - intros Herr. split.
    + rewrite applyChanges_results. apply map_eq. intros id.
      rewrite afterRecording_lookup.
      destruct (transactionErrOf [] w) as [[err|msg]|] eqn:He; [|done..].
      by rewrite (Herr err eq_refl), lookup_empty.
    + rewrite applyChanges_trace_full, partitions_eq. simpl.
      destruct (transactionErrOf [] w) as [[err|msg]|] eqn:He; simpl;
        [|done..].
      by rewrite (Herr err eq_refl), map_to_list_empty.
Qed.

(** X8.  The services with a ledger entry after the call are those that had
    one before, those of the batch and those named by a
    [platform.ApplyError] returned by the ordinary apply: entries are added
    or overwritten, never removed. *)
Theorem ledger_domain_after_call updates w :
  dom (results (applyChanges updates w).2)
  = dom (results w)
    ∪ list_to_set (update_ServiceID <$> updates)
    ∪ match transactionErrOf updates w with
      | Some (ApplyError err) => dom err
      | _ => ∅
      end.
Proof.
  apply set_eq. intros id.
  rewrite !elem_of_union, !elem_of_dom, elem_of_list_to_set.
  rewrite applyChanges_results, afterRecording_lookup.
  destruct (transactionErrOf updates w) as [[err|msg]|].
  - rewrite elem_of_dom. destruct (err !! id) as [cause|].
    + split; [intros _; right; eauto | eauto].
    + rewrite primed_lookup. case_decide.
      * split; [auto | eauto].
      * split; [auto|]. intros [[?|?]|Hn]; [done|done|by destruct Hn].
  - case_decide.
    + split; [auto | eauto].
    + rewrite primed_lookup, decide_False by done.
      split; [auto|]. intros [[?|?]|Hn]; [done|done|].
      by apply elem_of_empty in Hn.
  - rewrite primed_lookup. case_decide.
    + split; [auto | eauto].
    + split; [auto|]. intros [[?|?]|Hn]; [done|done|].
      by apply elem_of_empty in Hn.
Qed.

(** X9.  Every result the call writes to the ledger has one of the three
    named statuses, and after the call the status of every record of the
    batch is one of them, whatever the ledger held before. *)
Theorem only_named_statuses_written updates w :
  (∀ id r,
     WriteResult id r
       ∈ drop (length (trace w)) (trace (applyChanges updates w).2) →
     Status r = ReleaseStatusSuccess ∨ Status r = ReleaseStatusFailed
     ∨ Status r = ReleaseStatusUnknown)
  ∧ (∀ u : ServiceUpdate, u ∈ updates →
       ∃ r, results (applyChanges updates w).2 !! update_ServiceID u = Some r
            ∧ (Status r = ReleaseStatusSuccess
               ∨ Status r = ReleaseStatusFailed
               ∨ Status r = ReleaseStatusUnknown)).
Proof.
  split.
  - intros id r. rewrite applyChanges_trace_full, drop_app_length.
    rewrite elem_of_app, elem_of_cons, elem_of_app.
    intros [Hin|[?|[Hin|Hin]]]; [|done| |].
    + pose proof (startEffects_shape updates (results w)) as Hs.
      rewrite Forall_forall in Hs. apply Hs in Hin as [_ ->]. by left.
    + pose proof (recordingWrites_status updates (transactionErrOf updates w))
        as Hs.
      rewrite Forall_forall in Hs.
      apply Hs in Hin as (id' & r' & [= <- <-] & [?|?]); auto.
    + case_decide; [by apply elem_of_nil in Hin|].
      unfold finishEffects in Hin. apply elem_of_app in Hin as [Hin|Hin].
      * apply list_elem_of_fmap in Hin as (d & Hd & _).
        destruct (reportEffect_not_write
                    (results (afterRecording updates w)) d) as [Hw _].
        rewrite <- Hd in Hw. simpl in Hw. tauto.
      * unfold asyncEffects in Hin. case_decide.
        -- by apply list_elem_of_singleton in Hin.
        -- by apply elem_of_nil in Hin.
  - intros u Hu.
    assert (update_ServiceID u ∈ update_ServiceID <$> updates) as Hin
      by by apply list_elem_of_fmap_2.
    rewrite applyChanges_results, afterRecording_lookup.
    destruct (transactionErrOf updates w) as [[err|msg]|].
    + destruct (err !! update_ServiceID u) as [cause|]; [by eauto|].
      rewrite primed_lookup, decide_True by done. eauto.
    + rewrite decide_True by done. eauto 6.
    + rewrite primed_lookup, decide_True by done. eauto.
Qed.


(** ** Further properties of [summariseUpdate] *)

Lemma string_app_assoc (a b c : string) : (a +:+ b) +:+ c = a +:+ b +:+ c.
Proof.
  induction a as [|x a IH]; [done|].
  change (String x ((a +:+ b) +:+ c) = String x (a +:+ b +:+ c)).
  by f_equal.
Qed.

Lemma Join_app (l1 l2 : list string) sep :
  l1 ≠ [] → l2 ≠ [] →
  Join (l1 ++ l2) sep = Join l1 sep +:+ sep +:+ Join l2 sep.
Proof.
  intros H1 H2. induction l1 as [|x [|y l1] IH]; [done| |].
  - by destruct l2.
  - change (Join ((x :: y :: l1) ++ l2) sep)
      with (x +:+ sep +:+ Join ((y :: l1) ++ l2) sep).
    rewrite IH by done.
    change (Join (x :: y :: l1) sep) with (x +:+ sep +:+ Join (y :: l1) sep).
    by rewrite !string_app_assoc.
Qed.

Lemma occurrences_app c (a b : string) :
  occurrences c (a +:+ b) = occurrences c a + occurrences c b.
Proof.
  induction a as [|x a IH]; [done|].
  change (occurrences c (String x a +:+ b))
    with ((if Ascii.eqb c x then 1 else 0) + occurrences c (a +:+ b)).
  rewrite IH. simpl. lia.
Qed.

Lemma individualUpdate_has_arrow (c : ContainerUpdate) :
  0 < occurrences (Ascii.ascii_of_nat 62) (individualUpdate c).
Proof.
  unfold individualUpdate. rewrite !occurrences_app.
  change (occurrences (Ascii.ascii_of_nat 62) " -> ") with 1. lia.
Qed.

Lemma Join_has_arrow (l : list string) sep :
  l ≠ [] →
  Forall (λ s, 0 < occurrences (Ascii.ascii_of_nat 62) s) l →
  0 < occurrences (Ascii.ascii_of_nat 62) (Join l sep).
Proof.
  intros Hne Hall. destruct Hall as [|x [|y l] Hx _]; [done|done|].
  change (Join (x :: y :: l) sep) with (x +:+ sep +:+ Join (y :: l) sep).
  rewrite occurrences_app. lia.
Qed.

(** X10.  The summary of a list of changes that is the concatenation of two
    non-empty lists is the two summaries joined with [", "]. *)
Theorem summariseUpdate_app (l1 l2 : list ContainerUpdate) :
  l1 ≠ [] → l2 ≠ [] →
  summariseUpdate (l1 ++ l2)
  = summariseUpdate l1 +:+ ", " +:+ summariseUpdate l2.
Proof.
  intros H1 H2. unfold summariseUpdate.
  rewrite !decide_False.
  - rewrite fmap_app. apply Join_app; by destruct l1, l2.
  - by destruct l2.
  - by destruct l1.
  - by destruct l1.
Qed.

(** X11.  The summary is ["(no image changes)"] only for the empty list of
    changes: no container name, image reference or tag makes a non-empty
    list summarise to that text. *)
Theorem summariseUpdate_no_changes_iff (containerUpdates : list ContainerUpdate) :
  summariseUpdate containerUpdates = "(no image changes)"
  ↔ containerUpdates = [].
Proof.
  split; [|by intros ->].
  destruct containerUpdates as [|c l]; [done|]. intros Heq. exfalso.
  assert (0 < occurrences (Ascii.ascii_of_nat 62)
                (summariseUpdate (c :: l))) as Hpos.
  { unfold summariseUpdate. rewrite decide_False by done.
    apply Join_has_arrow; [done|].
    apply Forall_fmap, Forall_forall. intros x _.
    apply individualUpdate_has_arrow. }
  rewrite Heq in Hpos. vm_compute in Hpos. lia.
Qed.

End Proofs.

(** * [LockedServices] *)

Section LockingProofs.
Context {ServiceConfig : Type} (Locked : ServiceConfig → bool).
Context (Add : gset ServiceID → list ServiceID → gset ServiceID).

Lemma lockedIDs_filter (config : @Config ServiceConfig) :
  lockedIDs Locked config
  = (filter (λ kv, Locked kv.2 = true) (map_to_list (Services config))).*1.
Proof.
  unfold lockedIDs.
  enough (∀ l (acc : list ServiceID),
            foldl (λ ids (kv : ServiceID * ServiceConfig),
                     if Locked kv.2 then ids ++ [kv.1] else ids) acc l
            = acc ++ (filter (λ kv, Locked kv.2 = true) l).*1) as Hgen
    by apply (Hgen _ []).
  induction l as [|kv l IH]; intros acc; simpl.
  - by rewrite app_nil_r.
  - rewrite IH, filter_cons. destruct (Locked kv.2) eqn:Hl.
    + rewrite decide_True by done. simpl. by rewrite <- app_assoc.
    + by rewrite decide_False by done.
Qed.

Lemma elem_of_lockedIDs (config : @Config ServiceConfig) id :
  id ∈ lockedIDs Locked config
  ↔ ∃ s, Services config !! id = Some s ∧ Locked s = true.
Proof.
  rewrite lockedIDs_filter, list_elem_of_fmap. split.
  - intros ([k s] & -> & Hin). apply list_elem_of_filter in Hin as [Hl Hin].
    apply elem_of_map_to_list in Hin. eauto.
  - intros (s & Hs & Hl). exists (id, s). split; [done|].
    apply list_elem_of_filter. split; [done|]. by apply elem_of_map_to_list.
Qed.

(** X12.  The slice [LockedServices] hands to [Add], together with the empty
    set, holds each locked service of the configuration exactly once and no
    other identifier. *)
Theorem LockedServices_adds_each_locked_once (config : @Config ServiceConfig) :
  ∃ ids,
    LockedServices Locked Add config = Add ∅ ids
    ∧ NoDup ids
    ∧ ∀ id, id ∈ ids
            ↔ ∃ s, Services config !! id = Some s ∧ Locked s = true.
Proof.
  exists (lockedIDs Locked config). split; [done|]. split.
  - rewrite lockedIDs_filter.
    apply (sublist_NoDup _ (map_to_list (Services config)).*1).
    + apply NoDup_fst_map_to_list.
    + apply fmap_sublist, sublist_filter; apply _.
  - apply elem_of_lockedIDs.
Qed.

(** X13.  When [Add] adds the identifiers of a slice to a set, the result of
    [LockedServices] holds exactly the services that have an entry in the
    configuration with [Locked] set: a service without an entry, or with an
    entry that is not locked, is not in it. *)
Theorem LockedServices_spec (config : @Config ServiceConfig) id :
  (∀ (s : gset ServiceID) ids i, i ∈ Add s ids ↔ i ∈ s ∨ i ∈ ids) →
  id ∈ LockedServices Locked Add config
  ↔ ∃ s, Services config !! id = Some s ∧ Locked s = true.
Proof.
  intros HAdd. unfold LockedServices. simpl.
  rewrite HAdd, <- elem_of_lockedIDs. split; [|auto].
  intros [Hin|Hin]; [|done]. by apply elem_of_empty in Hin.
Qed.

End LockingProofs.


(** * The theorems at work on sample batches *)

Import Sample.

(** C9 fails as stated: for the change [("c1", a:1, b:2)] the summary ends
    with the tag of the target, not with the target image reference. *)
Lemma summary_drops_target_repository :
  summariseUpdate [ {| Container := "c1";
                       Current := image "a" "1";
                       Target := image "b" "2" |} ]
  = "c1 (a:1 -> 2)"
  ∧ summariseUpdate [ {| Container := "c1";
                         Current := image "a" "1";
                         Target := image "b" "2" |} ]
    ≠ "c1 (" +:+ renderImage (image "a" "1") +:+ " -> "
        +:+ renderImage (image "b" "2") +:+ ")".
Proof. split; [reflexivity | vm_compute; discriminate]. Qed.

Lemma provisional_success_before_apply_witness :
  web ∈ [web; fluxsvc; api]
  ∧ results (atApply [web; fluxsvc; api] (world ∅ [None])) !! "ns/web"
    = Some {| Status := ReleaseStatusSuccess; Error := ""; PerContainer := [] |}.
Proof.
  assert (web ∈ [web; fluxsvc; api]) as Hin by constructor.
  split; [exact Hin|].
  exact (proj1 (provisional_success_before_apply
                  [web; fluxsvc; api] (world ∅ [None]) web Hin)).
Defined.

Lemma coverall_error_marks_batch_unknown_witness :
  transactionErrOf [web; fluxsvc; api] (world ∅ [platformDown])
  = Some (OtherError "connection refused")
  ∧ (applyChanges [web; fluxsvc; api] (world ∅ [platformDown])).1
    = Some (OtherError "connection refused").
Proof.
  split; [reflexivity|].
  exact (proj1 (coverall_error_marks_batch_unknown
                  [web; fluxsvc; api] (world ∅ [platformDown])
                  "connection refused" eq_refl)).
Defined.

Lemma per_service_error_marks_named_failed_witness :
  transactionErrOf [web; fluxsvc; api] (world ∅ [webFails])
  = Some (ApplyError {["ns/web" := "image pull failed"]})
  ∧ results (applyChanges [web; fluxsvc; api] (world ∅ [webFails])).2 !! "ns/web"
    = Some {| Status := ReleaseStatusFailed; Error := "image pull failed";
              PerContainer := [] |}.
Proof.
  split; [reflexivity|].
  apply (proj1 (per_service_error_marks_named_failed
                  [web; fluxsvc; api] (world ∅ [webFails])
                  {["ns/web" := "image pull failed"]} eq_refl)).
  reflexivity.
Defined.

(** C3 fails as stated: the [platform.ApplyError] comes back to the
    caller. *)
Lemma per_service_error_reaches_caller :
  transactionErrOf [web; api] (world ∅ [webFails])
  = Some (ApplyError {["ns/web" := "image pull failed"]})
  ∧ (applyChanges [web; api] (world ∅ [webFails])).1 ≠ None.
Proof. split; [reflexivity | vm_compute; discriminate]. Qed.

Lemma per_service_error_recorded_and_returned_witness :
  transactionErrOf [web; api] (world ∅ [webFails])
  = Some (ApplyError {["ns/web" := "image pull failed"]})
  ∧ (applyChanges [web; api] (world ∅ [webFails])).1
    = Some (ApplyError {["ns/web" := "image pull failed"]}).
Proof.
  split; [reflexivity|].
  exact (proj1 (per_service_error_recorded_and_returned
                  [web; api] (world ∅ [webFails])
                  {["ns/web" := "image pull failed"]} eq_refl)).
Defined.

(** C6 fails as stated: a [platform.ApplyError] naming ["ns/other"], which
    is not in the batch, makes the function write the ledger entry of
    ["ns/other"]. *)
Lemma error_naming_stranger_writes_ledger :
  ("ns/other" ∉ update_ServiceID <$> [web; api])
  ∧ results (world ∅ [strangerFails]) !! "ns/other" = None
  ∧ results (applyChanges [web; api] (world ∅ [strangerFails])).2 !! "ns/other"
    = Some {| Status := ReleaseStatusFailed; Error := "image pull failed";
              PerContainer := [] |}.
Proof.
  split; [|split; reflexivity].
  apply (bool_decide_unpack _). vm_compute. exact I.
Qed.

Lemma untouched_outside_batch_and_error_witness :
  ("ns/other" ∉ update_ServiceID <$> [web; api])
  ∧ (∀ err, transactionErrOf [web; api] (world ∅ [webFails])
            = Some (ApplyError err) → err !! "ns/other" = None)
  ∧ results (applyChanges [web; api] (world ∅ [webFails])).2 !! "ns/other"
    = None.
Proof.
  assert ("ns/other" ∉ update_ServiceID <$> [web; api]) as Hout.
  { apply (bool_decide_unpack _). vm_compute. exact I. }
  assert (∀ err, transactionErrOf [web; api] (world ∅ [webFails])
                 = Some (ApplyError err) → err !! "ns/other" = None) as Herr.
  { intros err Heq. vm_compute in Heq.
    injection Heq as <-. vm_compute. reflexivity. }
  split; [exact Hout|]. split; [exact Herr|].
  exact (proj1 (untouched_outside_batch_and_error
                  [web; api] (world ∅ [webFails]) "ns/other" Hout Herr)).
Defined.

(** C7 fails as stated: a [platform.ApplyError] naming the self record
    ["ns/fluxsvc"] is not a coverall error, so the self partition is still
    submitted, and the provisional [Success] of that record has been
    overwritten with [Failed]. *)
Lemma self_outcome_revisited_by_named_error :
  (partitions [web; fluxsvc]
     (world ∅ [Some (ApplyError {["ns/fluxsvc" := "denied"]})])).2
  = [asyncDef fluxsvc]
  ∧ ¬ isCoverall
        (transactionErrOf [web; fluxsvc]
           (world ∅ [Some (ApplyError {["ns/fluxsvc" := "denied"]})]))
  ∧ last (trace (applyChanges [web; fluxsvc]
                   (world ∅ [Some (ApplyError {["ns/fluxsvc" := "denied"]})])).2)
    = Some (Apply [asyncDef fluxsvc])
  ∧ results (atApply [web; fluxsvc]
               (world ∅ [Some (ApplyError {["ns/fluxsvc" := "denied"]})]))
      !! "ns/fluxsvc"
    = Some {| Status := ReleaseStatusSuccess; Error := ""; PerContainer := [] |}
  ∧ results (applyChanges [web; fluxsvc]
               (world ∅ [Some (ApplyError {["ns/fluxsvc" := "denied"]})])).2
      !! "ns/fluxsvc"
    = Some {| Status := ReleaseStatusFailed; Error := "denied";
              PerContainer := [] |}.
Proof.
  split; [reflexivity|]. split; [vm_compute; tauto|].
  split; [reflexivity|]. split; reflexivity.
Qed.

Lemma async_apply_once_last_ignored_witness :
  fluxsvc ∈ [web; fluxsvc; api]
  ∧ isSelf fluxsvc
  ∧ ¬ isCoverall (transactionErrOf [web; fluxsvc; api] (world ∅ [webFails]))
  ∧ (∀ err, transactionErrOf [web; fluxsvc; api] (world ∅ [webFails])
            = Some (ApplyError err) → err !! "ns/fluxsvc" = None)
  ∧ Status (lookupResult
              (results (applyChanges [web; fluxsvc; api]
                          (world ∅ [webFails])).2) "ns/fluxsvc")
    = ReleaseStatusSuccess.
Proof.
  assert (fluxsvc ∈ [web; fluxsvc; api]) as Hin by repeat constructor.
  assert (isSelf fluxsvc) as Hs by by left.
  assert (¬ isCoverall
            (transactionErrOf [web; fluxsvc; api] (world ∅ [webFails])))
    as Hnc by (vm_compute; tauto).
  assert (∀ err, transactionErrOf [web; fluxsvc; api] (world ∅ [webFails])
                 = Some (ApplyError err) → err !! "ns/fluxsvc" = None)
    as Hunnamed.
  { intros err Heq. vm_compute in Heq.
    injection Heq as <-. vm_compute. reflexivity. }
  split; [exact Hin|]. split; [exact Hs|]. split; [exact Hnc|].
  split; [exact Hunnamed|].
  exact (proj2 (proj1 (proj2 (proj2 (proj2 (proj2
           (async_apply_once_last_ignored
              [web; fluxsvc; api] (world ∅ [webFails]))))))
           fluxsvc Hin Hs Hnc Hunnamed)).
Defined.

(** C8 fails as stated: [web] carries the change [app: v1 -> v2], the
    ledger is empty when the call begins, and the result event of [web]
    speaks of no image change. *)
Lemma result_event_ignores_update_record :
  transactionErrOf [web] (world ∅ [None]) = None
  ∧ summariseUpdate (Updates web) = "app (repo/app:v1 -> v2)"
  ∧ drop 3 (trace (applyChanges [web] (world ∅ [None])).2)
    = [LogEvent "ns" "web" "Release (no image changes) succeeded"]
  ∧ drop 3 (trace (applyChanges [web] (world ∅ [None])).2)
    ≠ [LogEvent "ns" "web"
         ("Release " +:+ summariseUpdate (Updates web) +:+ " succeeded")].
Proof.
  split; [reflexivity|]. split; [reflexivity|]. split; [reflexivity|].
  vm_compute. discriminate.
Qed.

Lemma result_events_read_ledger_witness :
  ¬ isCoverall (transactionErrOf [web; fluxsvc; api] (world ∅ [webFails]))
  ∧ ∃ writes reports,
      trace (applyChanges [web; fluxsvc; api] (world ∅ [webFails])).2
      = trace (atApply [web; fluxsvc; api] (world ∅ [webFails]))
        ++ Apply (partitions [web; fluxsvc; api] (world ∅ [webFails])).1
        :: writes ++ reports
        ++ [Apply (partitions [web; fluxsvc; api] (world ∅ [webFails])).2]
      ∧ length reports = 2.
Proof.
  assert (¬ isCoverall
            (transactionErrOf [web; fluxsvc; api] (world ∅ [webFails])))
    as Hnc by (vm_compute; tauto).
  split; [exact Hnc|].
  destruct (result_events_read_ledger
              [web; fluxsvc; api] (world ∅ [webFails]) Hnc)
    as (writes & reports & Htrace & _ & Hreports).
  exists writes, reports. split; [exact Htrace|].
  symmetry. exact (Forall2_length _ _ _ Hreports).
Defined.

Lemma reported_status_success_or_failed_witness :
  ¬ isCoverall (transactionErrOf [web; fluxsvc; api] (world ∅ [webFails]))
  ∧ ∀ keyvals,
      Log keyvals
        ∉ trace (applyChanges [web; fluxsvc; api] (world ∅ [webFails])).2.
Proof.
  assert (¬ isCoverall
            (transactionErrOf [web; fluxsvc; api] (world ∅ [webFails])))
    as Hnc by (vm_compute; tauto).
  split; [exact Hnc|].
  intros keyvals Hin.
  apply (proj1 (proj2 (reported_status_success_or_failed
                         [web; fluxsvc; api] (world ∅ [webFails]) Hnc))) in Hin.
  exact (proj1 (elem_of_nil _) Hin).
Defined.

(** ** The further properties on sample inputs *)

Lemma no_error_reports_every_ordinary_success_witness :
  transactionErrOf [web; fluxsvc; api] (world ∅ [None]) = None
  ∧ results (applyChanges [web; fluxsvc; api] (world ∅ [None])).2
    = results (atApply [web; fluxsvc; api] (world ∅ [None])).
Proof.
  split; [reflexivity|].
  exact (proj1 (proj2 (no_error_reports_every_ordinary_success
                         [web; fluxsvc; api] (world ∅ [None]) eq_refl))).
Defined.

Lemma failed_event_shows_no_image_changes_witness :
  transactionErrOf [web; fluxsvc; api] (world ∅ [webFails])
  = Some (ApplyError {["ns/web" := "image pull failed"]})
  ∧ web ∈ [web; fluxsvc; api]
  ∧ ¬ isSelf web
  ∧ LogEvent "ns" "web" "Release (no image changes) failed: image pull failed"
    ∈ trace (applyChanges [web; fluxsvc; api] (world ∅ [webFails])).2.
Proof.
  assert (web ∈ [web; fluxsvc; api]) as Hin by constructor.
  assert (¬ isSelf web) as Hns by (intros [Heq|Heq]; discriminate Heq).
  split; [reflexivity|]. split; [exact Hin|]. split; [exact Hns|].
  exact (failed_event_shows_no_image_changes
           [web; fluxsvc; api] (world ∅ [webFails])
           {["ns/web" := "image pull failed"]} web "image pull failed"
           eq_refl Hin Hns eq_refl).
Defined.

Lemma partitions_share_no_service_witness :
  syncDef web ∈ (partitions [web; fluxsvc; api] (world ∅ [None])).1
  ∧ asyncDef fluxsvc ∈ (partitions [web; fluxsvc; api] (world ∅ [None])).2
  ∧ def_ServiceID (syncDef web) ≠ def_ServiceID (asyncDef fluxsvc).
Proof.
  assert (syncDef web ∈ (partitions [web; fluxsvc; api] (world ∅ [None])).1)
    as Hd.
  { apply in_sync_partition; [constructor|].
    intros [Heq|Heq]; discriminate Heq. }
  assert (asyncDef fluxsvc
            ∈ (partitions [web; fluxsvc; api] (world ∅ [None])).2) as Ha.
  { apply in_async_partition; [repeat constructor|]. by left. }
  split; [exact Hd|]. split; [exact Ha|].
  exact (proj2 (proj2 (partitions_share_no_service
                         [web; fluxsvc; api] (world ∅ [None]))) _ _ Hd Ha).
Defined.

Lemma provisional_ledger_depends_on_services_only_witness :
  (∀ id, id ∈ update_ServiceID <$> [web; web; api]
         ↔ id ∈ update_ServiceID <$> [api; web])
  ∧ results (atApply [web; web; api] (world ∅ [None]))
    = results (atApply [api; web] (world ∅ [None])).
Proof.
  assert (∀ id, id ∈ update_ServiceID <$> [web; web; api]
                ↔ id ∈ update_ServiceID <$> [api; web]) as Hsame.
  { intros id. simpl. rewrite !elem_of_cons. tauto. }
  split; [exact Hsame|].
  exact (provisional_ledger_depends_on_services_only
           [web; web; api] [api; web] (world ∅ [None]) Hsame).
Defined.

Lemma per_service_error_does_not_stop_async_witness :
  transactionErrOf [web; fluxsvc]
    (world ∅ [Some (ApplyError {["ns/fluxsvc" := "denied"]})])
  = Some (ApplyError {["ns/fluxsvc" := "denied"]})
  ∧ fluxsvc ∈ [web; fluxsvc]
  ∧ isSelf fluxsvc
  ∧ last (trace (applyChanges [web; fluxsvc]
                   (world ∅ [Some (ApplyError {["ns/fluxsvc" := "denied"]})])).2)
    = Some (Apply [asyncDef fluxsvc]).
Proof.
  assert (fluxsvc ∈ [web; fluxsvc]) as Hin by repeat constructor.
  assert (isSelf fluxsvc) as Hs by by left.
  split; [reflexivity|]. split; [exact Hin|]. split; [exact Hs|].
  exact (proj2 (proj2 (per_service_error_does_not_stop_async
                         [web; fluxsvc]
                         (world ∅ [Some (ApplyError {["ns/fluxsvc" := "denied"]})])
                         {["ns/fluxsvc" := "denied"]} fluxsvc "denied"
                         eq_refl Hin Hs eq_refl))).
Defined.

Lemma empty_batch_calls_platform_once_witness :
  (∀ err, transactionErrOf [] (world ∅ [platformDown])
          = Some (ApplyError err) → err = ∅)
  ∧ trace (applyChanges [] (world ∅ [platformDown])).2 = [Apply []].
Proof.
  assert (∀ err, transactionErrOf [] (world ∅ [platformDown])
                 = Some (ApplyError err) → err = ∅) as Herr.
  { intros err Heq. vm_compute in Heq. discriminate Heq. }
  split; [exact Herr|].
  exact (proj2 (proj2 (proj2 (empty_batch_calls_platform_once
                                (world ∅ [platformDown]))) Herr)).
Defined.

Lemma only_named_statuses_written_witness :
  web ∈ [web; fluxsvc; api]
  ∧ ∃ r, results (applyChanges [web; fluxsvc; api]
                    (world ∅ [platformDown])).2 !! "ns/web" = Some r
         ∧ (Status r = ReleaseStatusSuccess
            ∨ Status r = ReleaseStatusFailed
            ∨ Status r = ReleaseStatusUnknown).
Proof.
  assert (web ∈ [web; fluxsvc; api]) as Hin by constructor.
  split; [exact Hin|].
  exact (proj2 (only_named_statuses_written
                  [web; fluxsvc; api] (world ∅ [platformDown])) web Hin).
Defined.

Lemma summariseUpdate_app_witness :
  Updates web ≠ [] 
  ∧ summariseUpdate (Updates web ++ Updates web)
    = summariseUpdate (Updates web) +:+ ", " +:+ summariseUpdate (Updates web).
Proof.
  assert (Updates web ≠ []) as Hne by discriminate.
  split; [exact Hne|].
  exact (summariseUpdate_app (Updates web) (Updates web) Hne Hne).
Defined.

Lemma LockedServices_spec_witness :
  (∀ (s : gset ServiceID) ids i,
     i ∈ SampleLocking.addAll s ids ↔ i ∈ s ∨ i ∈ ids)
  ∧ "ns/web"
    ∈ LockedServices SampleLocking.IsLocked SampleLocking.addAll
        SampleLocking.config
  ∧ "ns/api"
    ∉ LockedServices SampleLocking.IsLocked SampleLocking.addAll
        SampleLocking.config.
Proof.
  assert (∀ (s : gset ServiceID) ids i,
            i ∈ SampleLocking.addAll s ids ↔ i ∈ s ∨ i ∈ ids) as HAdd.
  { intros s ids i. unfold SampleLocking.addAll.
    by rewrite elem_of_union, elem_of_list_to_set. }
  split; [exact HAdd|]. split.
  - apply (LockedServices_spec SampleLocking.IsLocked SampleLocking.addAll
             SampleLocking.config "ns/web" HAdd).
    eexists. split; reflexivity.
  - intros Hin.
    apply (LockedServices_spec SampleLocking.IsLocked SampleLocking.addAll
             SampleLocking.config "ns/api" HAdd) in Hin as (s & Hs & Hl).
    vm_compute in Hs. injection Hs as <-. discriminate Hl.
Defined.
